(** * ArchLens maintenance scripts: regular-expression rewriting of Rust sources

    A shallow embedding of the three scripts [fix_chrono.py],
    [fix_analysis_warnings.py] and [fix_all_warnings.py], and the properties
    their specification states about them.

    - Python [str] values are lists of Unicode code points.
    - The patterns given to [re.sub] are terms of a small regular-expression
      syntax; matching follows the backtracking order of Python's [re]
      (greedy and lazy repetition, leftmost match, numbered groups).
    - File access and printing run in a state-and-exception monad over a
      world made of a directory listing, a file store and the output so far. *)

From Stdlib Require Import List NArith Lia Bool String Ascii.
From stdpp Require Import base gmap.
Import ListNotations.

Local Open Scope N_scope.
Local Open Scope nat_scope.
Local Open Scope list_scope.

(** ** Text *)

(** A character is a Unicode code point, a [str] is a Python string. *)
Abbreviation char := N (only parsing).
Abbreviation str := (list N) (only parsing).

(** Code points of the UTF-8 text of a literal, so that the literals of the
    scripts can be written as they appear in the source. *)
Fixpoint utf8_bytes (s : string) : list N :=
  match s with
  | EmptyString => []
  | String a s' => N_of_ascii a :: utf8_bytes s'
  end.

Fixpoint utf8_points (bs : list N) (need : nat) (acc : N) : str :=
  match bs with
  | [] => []
  | b :: bs' =>
      match need with
      | O =>
          if (b <? 128)%N then b :: utf8_points bs' 0 0%N
          else if (b <? 224)%N then utf8_points bs' 1 (b - 192)%N
          else if (b <? 240)%N then utf8_points bs' 2 (b - 224)%N
          else utf8_points bs' 3 (b - 240)%N
      | S k =>
          let acc' := (acc * 64 + (b - 128))%N in
          match k with
          | O => acc' :: utf8_points bs' 0 0%N
          | S _ => utf8_points bs' k acc'
          end
      end
  end.

Definition u (s : string) : str := utf8_points (utf8_bytes s) 0 0%N.

(** Literals are decoded by [vm_compute] where their characters are needed,
    and unfolded last when two terms are compared. *)
Arguments u : simpl never.
Strategy 100 [u].

Definition char_eqb (a b : char) : bool := N.eqb a b.

Fixpoint str_eqb (a b : str) : bool :=
  match a, b with
  | [], [] => true
  | x :: a', y :: b' => char_eqb x y && str_eqb a' b'
  | _, _ => false
  end.

(** [s.startswith(p)] *)
Fixpoint startswith (p s : str) : bool :=
  match p with
  | [] => true
  | a :: p' =>
      match s with
      | c :: s' => char_eqb a c && startswith p' s'
      | [] => false
      end
  end.

(** [s.endswith(p)] *)
Definition endswith (p s : str) : bool :=
  startswith (rev p) (rev s).

(** [p in s] *)
Fixpoint contains (p s : str) : bool :=
  startswith p s ||
  match s with
  | [] => false
  | _ :: s' => contains p s'
  end.

Definition newline : char := 10%N.
Definition space : char := 32%N.

(** [s.split('\n')]: never empty, the last piece is what follows the last
    newline. *)
Fixpoint split_lines (s : str) : list str :=
  match s with
  | [] => [[]]
  | c :: s' =>
      if char_eqb c newline then [] :: split_lines s'
      else match split_lines s' with
           | l :: ls => (c :: l) :: ls
           | [] => [[c]]
           end
  end.

(** ['\n'.join(ls)] *)
Fixpoint join_lines (ls : list str) : str :=
  match ls with
  | [] => []
  | [l] => l
  | l :: ls' => l ++ newline :: join_lines ls'
  end.

(** Decimal text of a counter, as an f-string prints it. *)
Definition digit (n : nat) : char := (48 + N.of_nat n)%N.

Fixpoint decimal_aux (fuel n : nat) (acc : str) : str :=
  match fuel with
  | O => acc
  | S fuel' =>
      let acc' := digit (n mod 10) :: acc in
      match n / 10 with
      | O => acc'
      | q => decimal_aux fuel' q acc'
      end
  end.

Definition str_of_nat (n : nat) : str := decimal_aux (S n) n [].

(** ** Regular expressions, as Python's [re] runs them *)

Module Re.

(** The character classes the scripts use: [\s] and negated sets [[^...]]. *)
Inductive cclass :=
| Space
| NoneOf (cs : str).

(** [\s] on a [str] pattern: the characters for which [str.isspace] holds. *)
Definition is_space (c : char) : bool :=
  ((9 <=? c) && (c <=? 13) || (28 <=? c) && (c <=? 32) ||
   (c =? 133) || (c =? 160) || (c =? 5760) ||
   (8192 <=? c) && (c <=? 8202) || (c =? 8232) || (c =? 8233) ||
   (c =? 8239) || (c =? 8287) || (c =? 12288))%N.

Definition cmem (k : cclass) (c : char) : bool :=
  match k with
  | Space => is_space c
  | NoneOf cs => negb (existsb (char_eqb c) cs)
  end.

(** The fragment of the pattern syntax the scripts use. Every repetition in
    their patterns is over one character class. *)
Inductive regex :=
| Lit (l : str)            (* literal text, escapes resolved *)
| Star (k : cclass)        (* k*   greedy *)
| StarLazy (k : cclass)    (* k*?  lazy *)
| Plus (k : cclass)        (* k+   greedy *)
| Cat (r1 r2 : regex)      (* r1 r2 *)
| Grp (r : regex).         (* ( r ) capturing *)

(** What one attempt at one position yields: the numbered groups, the text
    matched ([group(0)]) and the text after it. *)
Record found := Found { groups : list str; matched : str; after : str }.

(** The literal [l] at the head of [s]: what follows it. *)
Fixpoint lit_rest (l s : str) : option str :=
  match l with
  | [] => Some s
  | a :: l' =>
      match s with
      | c :: s' => if char_eqb a c then lit_rest l' s' else None
      | [] => None
      end
  end.

(** The ways of cutting [s] after a run of characters of class [k],
    shortest run first. *)
Fixpoint runs (k : cclass) (s : str) : list (str * str) :=
  ([], s) ::
  match s with
  | c :: s' =>
      if cmem k c then map (fun mt => (c :: fst mt, snd mt)) (runs k s')
      else []
  | [] => []
  end.

Definition nonempty_run (mt : str * str) : bool :=
  match fst mt with [] => false | _ :: _ => true end.

Definition of_run (mt : str * str) : found := Found [] (fst mt) (snd mt).

(** All the ways [r] matches at the head of [s], in the order a backtracking
    matcher tries them: a greedy repetition tries the longest run first, a
    lazy one the shortest; groups are numbered by their opening bracket. *)
Fixpoint alts (r : regex) (s : str) : list found :=
  match r with
  | Lit l =>
      match lit_rest l s with
      | Some t => [Found [] l t]
      | None => []
      end
  | Star k => map of_run (rev (runs k s))
  | StarLazy k => map of_run (runs k s)
  | Plus k => map of_run (List.filter nonempty_run (rev (runs k s)))
  | Cat r1 r2 =>
      flat_map
        (fun f1 =>
           map (fun f2 => Found (groups f1 ++ groups f2)
                                (matched f1 ++ matched f2) (after f2))
               (alts r2 (after f1)))
        (alts r1 s)
  | Grp r' =>
      map (fun f => Found (matched f :: groups f) (matched f) (after f))
          (alts r' s)
  end.

(** The match at the head of [s], if any: the first way that succeeds. *)
Definition match_here (r : regex) (s : str) : option found :=
  head (alts r s).

(** [m.group(i)] for [i >= 1]. *)
Definition group (f : found) (i : nat) : str :=
  nth (i - 1) (groups f) [].

(** One piece of a scanned text: a character no match covers, or a match. *)
Inductive piece :=
| Keep (c : char)
| Hit (f : found).

(** The left-to-right scan of [re.sub] and [re.finditer]: at each position
    the pattern is tried; a match is taken and the scan goes on after it,
    otherwise the character is kept. [n] bounds the number of steps;
    [length s] is enough. A match of the empty text leaves the character at
    that position in place (none of the scripts' patterns matches the empty
    text). *)
Fixpoint scan_n (r : regex) (n : nat) (s : str) : list piece :=
  match s with
  | [] =>
      match match_here r [] with
      | Some f => [Hit f]
      | None => []
      end
  | c :: s' =>
      match n with
      | O => map Keep s
      | S n' =>
          match match_here r s with
          | Some f =>
              match matched f with
              | [] => Hit f :: Keep c :: scan_n r n' s'
              | _ :: _ => Hit f :: scan_n r n' (after f)
              end
          | None => Keep c :: scan_n r n' s'
          end
      end
  end.

Definition scan (r : regex) (s : str) : list piece :=
  scan_n r (length s) s.

(** [re.finditer(r, s)] *)
Definition finditer (r : regex) (s : str) : list found :=
  flat_map (fun p => match p with Keep _ => [] | Hit f => [f] end) (scan r s).

(** [re.search(r, s)] *)
Definition search (r : regex) (s : str) : option found :=
  head (finditer r s).

(** [re.sub(r, repl, s)] with a function [repl] from a match to its
    replacement. *)
Definition sub (r : regex) (repl : found -> str) (s : str) : str :=
  flat_map (fun p => match p with Keep c => [c] | Hit f => repl f end)
           (scan r s).

End Re.

Import Re.

(** A pattern written as a sequence of items. *)
Fixpoint seq (rs : list regex) : regex :=
  match rs with
  | [] => Lit []
  | [r] => r
  | r :: rs' => Cat r (seq rs')
  end.

(** *** Reading a pattern as it is written

    The patterns of the scripts, as raw strings, are read into the syntax
    above. Only what the scripts use is read: literal characters, escaped
    punctuation, [\s], negated sets, the repetitions [*], [*?] and [+] after
    a class, and groups; anything else is refused. *)
Module ReSyntax.

Inductive token :=
| TChar (c : char)
| TSpace
| TNoneOf (cs : str)
| TOpen
| TClose
| TStar
| TStarLazy
| TPlus.

Definition is_alnum (c : char) : bool :=
  ((48 <=? c) && (c <=? 57) || (65 <=? c) && (c <=? 90) ||
   (97 <=? c) && (c <=? 122))%N.

(** The characters that mean something when they are not escaped and that
    the reading does not take as literals. *)
Definition is_special (c : char) : bool :=
  existsb (char_eqb c) (u ".^$|?{}[]\\").

(** The members of a set, up to its closing bracket. *)
Fixpoint set_members (s : str) : option (str * str) :=
  match s with
  | [] => None
  | c :: s' =>
      if char_eqb c 93 then Some ([], s')
      else if char_eqb c 92 then None
      else match set_members s' with
           | Some (cs, rest) => Some (c :: cs, rest)
           | None => None
           end
  end.

Fixpoint tokens (n : nat) (s : str) : option (list token) :=
  match n with
  | O => match s with [] => Some [] | _ :: _ => None end
  | S n' =>
      match s with
      | [] => Some []
      | 92 :: c :: s' =>                                   (* backslash *)
          if char_eqb c 115 then option_map (cons TSpace) (tokens n' s')
          else if is_alnum c then None
          else option_map (cons (TChar c)) (tokens n' s')
      | 91 :: 94 :: s' =>                                  (* [^ *)
          match set_members s' with
          | Some (cs, rest) => option_map (cons (TNoneOf cs)) (tokens n' rest)
          | None => None
          end
      | 40 :: s' => option_map (cons TOpen) (tokens n' s')
      | 41 :: s' => option_map (cons TClose) (tokens n' s')
      | 42 :: 63 :: s' => option_map (cons TStarLazy) (tokens n' s')
      | 42 :: s' => option_map (cons TStar) (tokens n' s')
      | 43 :: s' => option_map (cons TPlus) (tokens n' s')
      | c :: s' =>
          if is_special c then None
          else option_map (cons (TChar c)) (tokens n' s')
      end
  end%N.

(** One more literal character after the items read so far. *)
Definition add_char (items : list regex) (c : char) : list regex :=
  match rev items with
  | Lit l :: before => rev before ++ [Lit (l ++ [c])]
  | _ => items ++ [Lit [c]]
  end.

(** The items of the pattern; [outer] holds the items of the groups that
    are still open, innermost first. *)
Fixpoint items_of (ts : list token) (items : list regex)
    (outer : list (list regex)) : option (list regex) :=
  match ts with
  | [] => match outer with [] => Some items | _ :: _ => None end
  | TChar c :: ts' => items_of ts' (add_char items c) outer
  | TSpace :: TStar :: ts' => items_of ts' (items ++ [Star Space]) outer
  | TSpace :: TStarLazy :: ts' => items_of ts' (items ++ [StarLazy Space]) outer
  | TSpace :: TPlus :: ts' => items_of ts' (items ++ [Plus Space]) outer
  | TNoneOf cs :: TStar :: ts' => items_of ts' (items ++ [Star (NoneOf cs)]) outer
  | TNoneOf cs :: TStarLazy :: ts' =>
      items_of ts' (items ++ [StarLazy (NoneOf cs)]) outer
  | TNoneOf cs :: TPlus :: ts' => items_of ts' (items ++ [Plus (NoneOf cs)]) outer
  | TOpen :: ts' => items_of ts' [] (items :: outer)
  | TClose :: ts' =>
      match outer with
      | before :: outer' => items_of ts' (before ++ [Grp (seq items)]) outer'
      | [] => None
      end
  | _ => None
  end.

Definition read (s : str) : option regex :=
  match tokens (length s) s with
  | Some ts => option_map seq (items_of ts [] [])
  | None => None
  end.

End ReSyntax.

Definition dq : str := [34%N].
Definition nl : str := [newline].

(** ** Files, output and exceptions *)

(** An exception is represented by its text, [str(e)]. *)
Definition exn := str.

(** How writing a file fails. [open(path, 'w')] truncates the file as soon
    as it succeeds: when [open] itself raises (no permission) the file is
    left as it was, when [write] or the flush on leaving the [with] block
    raises (no space left) the file is left empty. *)
Inductive write_failure :=
| OpenFails (e : exn)
| WriteFails (e : exn).

Definition failure_text (x : write_failure) : exn :=
  match x with
  | OpenFails e => e
  | WriteFails e => e
  end.

(** A file: what reading it as UTF-8 text gives (the text, or the exception
    raised by [open] or [read]), and how writing it fails, if it does. *)
Record file := File { text : exn + str; write_error : option write_failure }.

(** What a run adds to the outside: the lines printed and the files
    written, in order. *)
Inductive event :=
| Print (line : str)
| Wrote (path : str) (content : str).

Record world := World {
  dirs : gmap (list N) (list str);   (* os.listdir, by directory *)
  files : gmap (list N) file;        (* the files, by path *)
  out : list event                   (* what happened so far *)
}.

Definition IO (A : Type) : Type := world -> (exn + A) * world.

Definition ret {A} (a : A) : IO A := fun w => (inr a, w).

Definition bind {A B} (c : IO A) (k : A -> IO B) : IO B :=
  fun w =>
    match c w with
    | (inr a, w') => k a w'
    | (inl e, w') => (inl e, w')
    end.

Definition raise {A} (e : exn) : IO A := fun w => (inl e, w).

(** [try: body except Exception as e: handler(e)] *)
Definition try_except {A} (body : IO A) (handler : exn -> IO A) : IO A :=
  fun w =>
    match body w with
    | (inl e, w') => handler e w'
    | (inr a, w') => (inr a, w')
    end.

Declare Scope io_scope.
Delimit Scope io_scope with io.
Bind Scope io_scope with IO.
Notation "x <- c1 ;; c2" := (bind c1 (fun x => c2))
  (at level 20, c1 at level 99, c2 at level 200, only parsing) : io_scope.
Notation "c1 ;; c2" := (bind c1 (fun _ => c2))
  (at level 100, c2 at level 200, only parsing, right associativity) : io_scope.
Local Open Scope io_scope.

Definition emit (e : event) : IO unit :=
  fun w => (inr tt, World (dirs w) (files w) (out w ++ [e])).

(** [print(line)]; writing to the console is taken not to fail. *)
Definition print (line : str) : IO unit := emit (Print line).

Definition no_such_file (path : str) : exn :=
  u "[Errno 2] No such file or directory: '" ++ path ++ u "'".

(** [os.listdir(d)] *)
Definition listdir (d : str) : IO (list str) :=
  fun w =>
    match dirs w !! d with
    | Some names => (inr names, w)
    | None => (inl (no_such_file d), w)
    end.

(** [with open(path, 'r', encoding='utf-8') as f: f.read()]: the text as
    [read] returns it, or the exception of [open] or of the decoding. *)
Definition read_text (path : str) : IO str :=
  fun w =>
    match files w !! path with
    | Some f =>
        match text f with
        | inr content => (inr content, w)
        | inl e => (inl e, w)
        end
    | None => (inl (no_such_file path), w)
    end.

(** [with open(path, 'w', encoding='utf-8') as f: f.write(content)]: the
    file then holds [content]; or [open] raises and the file is as it was;
    or [open] has truncated the file and the writing raises, which leaves
    the file empty. *)
Definition write_text (path content : str) : IO unit :=
  fun w =>
    let werr := match files w !! path with
                | Some f => write_error f
                | None => None
                end in
    match werr with
    | Some (OpenFails e) => (inl e, w)
    | Some (WriteFails e) =>
        (inl e,
         World (dirs w) (<[path := File (inr []) werr]> (files w)) (out w))
    | None =>
        (inr tt,
         World (dirs w) (<[path := File (inr content) None]> (files w))
               (out w ++ [Wrote path content]))
    end.

(** [for x in xs: body], threading the variables the body assigns. *)
Fixpoint for_each {A S} (xs : list A) (body : A -> S -> IO S) (s : S) : IO S :=
  match xs with
  | [] => ret s
  | x :: xs' => s' <- body x s ;; for_each xs' body s'
  end.

(** [os.path.join(a, b)] on POSIX. *)
Definition path_join (a b : str) : str :=
  if startswith (u "/") b then b
  else if match a with [] => true | _ => endswith (u "/") a end then a ++ b
  else a ++ u "/" ++ b.

Definition src_dir : str := u "src".

(** How a script's [main] walks the directory: every [.rs] file goes through
    the per-file function and the files it reports fixed are counted. *)
Definition rust_files_of (names : list str) : list str :=
  List.filter (endswith (u ".rs")) names.

Definition count_fixed (fix_file : str -> IO bool) (rust_files : list str) : IO nat :=
  for_each rust_files
    (fun file_name fixed_count =>
       let file_path := path_join src_dir file_name in
       fixed <- fix_file file_path ;;
       ret (if fixed : bool then fixed_count + 1 else fixed_count))
    0.

(** The body shared by the per-file functions: read, rewrite, write back
    when the text changed, report; any exception is printed with the path
    and the file counts as not fixed. *)
Definition rewrite_file (rewrite : str -> str) (file_path : str) : IO bool :=
  try_except
    (content <- read_text file_path ;;
     let original_content := content in
     let content := rewrite content in
     if negb (str_eqb content original_content) then
       write_text file_path content ;;
       print (u "Исправлен файл: " ++ file_path) ;;
       ret true
     else ret false)
    (fun e =>
       print (u "Ошибка при обработке файла " ++ file_path ++ u ": " ++ e) ;;
       ret false).

(** ** fix_chrono.py *)

Module FixChrono.

(** Pattern "chrono::Some\(" *)
Definition pattern_chrono : regex := Lit (u "chrono::Some(").

(** Pattern "Some\(Some\(([^)]+)\)\.to_rfc3339\(\)\)\.to_rfc3339\(\)" *)
Definition pattern_nested : regex :=
  seq [Lit (u "Some(Some("); Grp (Plus (NoneOf (u ")")));
       Lit (u ").to_rfc3339()).to_rfc3339()")].

(** The template "Some(" *)
Definition some_template (m : found) : str := u "Some(".

(** The template "Some(\1.to_rfc3339())" *)
Definition nested_template (m : found) : str :=
  u "Some(" ++ group m 1 ++ u ".to_rfc3339())".

(** The two substitutions of [fix_chrono_some_in_file], in order. *)
Definition fix_text (content : str) : str :=
  let content := sub pattern_chrono some_template content in
  sub pattern_nested nested_template content.

Definition fix_chrono_some_in_file (file_path : str) : IO bool :=
  rewrite_file fix_text file_path.

Definition main : IO unit :=
  names <- listdir src_dir ;;
  let rust_files := rust_files_of names in
  fixed_count <- count_fixed fix_chrono_some_in_file rust_files ;;
  print (u "Исправлено файлов: " ++ str_of_nat fixed_count).

End FixChrono.

(** ** fix_analysis_warnings.py *)

Module FixAnalysisWarnings.

(** Pattern "(AnalysisWarning\s*\{[^}]*?)(\s*capsule_id:[^,]+,\s*suggestion:[^,}]+)(\s*\})" *)
Definition pattern : regex :=
  seq [Grp (seq [Lit (u "AnalysisWarning"); Star Space; Lit (u "{");
                 StarLazy (NoneOf (u "}"))]);
       Grp (seq [Star Space; Lit (u "capsule_id:"); Plus (NoneOf (u ","));
                 Lit (u ","); Star Space; Lit (u "suggestion:");
                 Plus (NoneOf (u ",}"))]);
       Grp (seq [Star Space; Lit (u "}")])].

Definition category_line : str :=
  u "," ++ nl ++ u "                category: " ++ dq ++ u "validation" ++ dq
    ++ u ".to_string(),".

Definition replace_warning (m : found) : str :=
  let prefix := group m 1 in
  let middle := group m 2 in
  let suffix := group m 3 in
  if contains (u "category:") prefix || contains (u "category:") middle then
    matched m
  else
    prefix ++ category_line ++ middle ++ suffix.

(** Pattern "(AnalysisWarning\s*\{\s*message:[^,]+,\s*level:[^,}]+)(\s*\})" *)
Definition pattern2 : regex :=
  seq [Grp (seq [Lit (u "AnalysisWarning"); Star Space; Lit (u "{");
                 Star Space; Lit (u "message:"); Plus (NoneOf (u ","));
                 Lit (u ","); Star Space; Lit (u "level:");
                 Plus (NoneOf (u ",}"))]);
       Grp (seq [Star Space; Lit (u "}")])].

Definition replace_simple_warning (m : found) : str :=
  let prefix := group m 1 in
  let suffix := group m 2 in
  prefix ++ category_line ++ nl ++ u "                capsule_id: None,"
         ++ nl ++ u "                suggestion: None" ++ suffix.

Definition fix_text (content : str) : str :=
  let content := sub pattern replace_warning content in
  sub pattern2 replace_simple_warning content.

Definition fix_analysis_warning_in_file (file_path : str) : IO bool :=
  rewrite_file fix_text file_path.

Definition main : IO unit :=
  names <- listdir src_dir ;;
  let rust_files := rust_files_of names in
  fixed_count <- count_fixed fix_analysis_warning_in_file rust_files ;;
  print (u "Исправлено файлов: " ++ str_of_nat fixed_count).

End FixAnalysisWarnings.

(** ** fix_all_warnings.py *)

(** [str.lower] on the letters of Basic Latin and of the Cyrillic block
    U+0400..U+042F; it is what the examples below pass for [str.lower],
    and Python agrees with it on text made of ASCII and these letters. *)
Definition lower_char (c : char) : char :=
  if ((65 <=? c) && (c <=? 90))%N then (c + 32)%N
  else if ((1040 <=? c) && (c <=? 1071))%N then (c + 32)%N
  else if ((1024 <=? c) && (c <=? 1039))%N then (c + 80)%N
  else c.

Definition lower_basic (s : str) : str := map lower_char s.

Module FixAllWarnings.

Section Rules.

(** [str.lower]: the case table of Unicode is not part of the scripts. *)
Variable lower : str -> str.

(** The loop that copies the leading blanks of a line into [indent]. *)
Fixpoint leading_spaces (line : str) : str :=
  match line with
  | c :: line' => if char_eqb c space then c :: leading_spaces line' else []
  | [] => []
  end.

(** The [if]/[elif] chain on [line.lower()]. *)
Definition category_of (line : str) : str :=
  if contains (u "сложность") (lower line) || contains (u "complexity") (lower line)
  then u "complexity"
  else if contains (u "связанность") (lower line) || contains (u "coupling") (lower line)
  then u "coupling"
  else if contains (u "зависимост") (lower line) || contains (u "cycle") (lower line)
  then u "dependencies"
  else if contains (u "слой") (lower line) || contains (u "layer") (lower line)
  then u "architecture"
  else if contains (u "имен") (lower line) || contains (u "naming") (lower line)
  then u "naming"
  else u "validation".

Definition category_field (indent category : str) : str :=
  indent ++ u "category: " ++ dq ++ category ++ dq ++ u ".to_string(),".

(** One turn of [for line in lines], on [(new_lines, category_added)]. *)
Definition add_step (st : list str * bool) (line : str) : list str * bool :=
  let new_lines := fst st ++ [line] in
  let category_added := snd st in
  if contains (u "message:") line && negb category_added then
    let indent := leading_spaces line in
    let category := category_of line in
    (new_lines ++ [category_field indent category], true)
  else (new_lines, category_added).

Definition add_category_if_missing (m : found) : str :=
  let full_match := matched m in
  if contains (u "category:") full_match then full_match
  else
    let lines := split_lines full_match in
    join_lines (fst (fold_left add_step lines ([], false))).

(** Pattern "AnalysisWarning\s*\{[^}]*?\}" *)
Definition pattern : regex :=
  seq [Lit (u "AnalysisWarning"); Star Space; Lit (u "{");
       StarLazy (NoneOf (u "}")); Lit (u "}")].

(** The f-string both [convert_string_warning] and [convert_format_warning]
    return, with the text of its [message:] line as a parameter. *)
Definition warning_record (indent message : str) : str :=
  indent ++ u "warnings.push(AnalysisWarning {" ++ nl ++
  indent ++ u "    message: " ++ message ++ u "," ++ nl ++
  indent ++ u "    level: Priority::Medium," ++ nl ++
  indent ++ u "    category: " ++ dq ++ u "analysis" ++ dq ++ u ".to_string()," ++ nl ++
  indent ++ u "    capsule_id: None," ++ nl ++
  indent ++ u "    suggestion: None," ++ nl ++
  indent ++ u "});".

Definition convert_string_warning (m : found) : str :=
  let indent := group m 1 in
  let warning_text := group m 2 in
  warning_record indent warning_text.

(** Pattern, spaced as under re.VERBOSE:
    "( \s* ) warnings\.push\( ( [^)]+ \.to_string\(\) ) \);" *)
Definition pattern_string_warnings : regex :=
  seq [Grp (Star Space); Lit (u "warnings.push(");
       Grp (seq [Plus (NoneOf (u ")")); Lit (u ".to_string()")]);
       Lit (u ");")].

Definition convert_format_warning (m : found) : str :=
  let indent := group m 1 in
  let format_content := group m 2 in
  warning_record indent (u "format!(" ++ format_content ++ u ")").

(** Pattern, spaced as under re.VERBOSE:
    "( \s* ) warnings\.push\(format!\( ( [^;]+ ) \)\);" *)
Definition pattern_format_warnings : regex :=
  seq [Grp (Star Space); Lit (u "warnings.push(format!(");
       Grp (Plus (NoneOf (u ";"))); Lit (u "));")].

(** The three substitutions of [fix_analysis_warnings_comprehensive]. *)
Definition fix_text (content : str) : str :=
  let content := sub pattern add_category_if_missing content in
  let content := sub pattern_string_warnings convert_string_warning content in
  sub pattern_format_warnings convert_format_warning content.

Definition fix_analysis_warnings_comprehensive (file_path : str) : IO bool :=
  rewrite_file fix_text file_path.

(** Pattern "\.warnings\.push\(([^)]+)\.message\)" *)
Definition pattern_message : regex :=
  seq [Lit (u ".warnings.push("); Grp (Plus (NoneOf (u ")")));
       Lit (u ".message)")].

(** The template ".warnings.push(\1)". *)
Definition unwrap_message (m : found) : str :=
  u ".warnings.push(" ++ group m 1 ++ u ")".

(** The body of the second loop of [main], for one file. *)
Definition fix_warning_message (file_path : str) : IO unit :=
  try_except
    (content <- read_text file_path ;;
     let original_content := content in
     let content := sub pattern_message unwrap_message content in
     if negb (str_eqb content original_content) then
       write_text file_path content ;;
       print (u "Исправлены warning.message в: " ++ file_path)
     else ret tt)
    (fun e => print (u "Ошибка: " ++ e)).

Definition main : IO unit :=
  names <- listdir src_dir ;;
  let rust_files := rust_files_of names in
  fixed_count <- count_fixed fix_analysis_warnings_comprehensive rust_files ;;
  print (u "Исправлено файлов: " ++ str_of_nat fixed_count) ;;
  print (u "Исправляю warnings.push(warning.message)...") ;;
  for_each rust_files
    (fun file_name (_ : unit) =>
       let file_path := path_join src_dir file_name in
       fix_warning_message file_path)
    tt.

End Rules.

End FixAllWarnings.

(** ** The vocabulary of the specification *)

(** The lookup the specification describes for the inserted field: an
    ordered list of keyword groups, each with its category; the first group
    with a keyword inside the lower-cased message line wins, and
    "validation" is the default. *)
Definition keyword_groups : list (list str * str) :=
  [ ([u "сложность"; u "complexity"], u "complexity");
    ([u "связанность"; u "coupling"], u "coupling");
    ([u "зависимост"; u "cycle"], u "dependencies");
    ([u "слой"; u "layer"], u "architecture");
    ([u "имен"; u "naming"], u "naming") ].

Definition category_by_keywords (lower : str -> str) (line : str) : str :=
  match List.find
          (fun g => existsb (fun kw => contains kw (lower line)) (fst g))
          keyword_groups with
  | Some g => snd g
  | None => u "validation"
  end.

(** [re.search] finds none of the patterns in [c]. *)
Definition no_rule_matches (rules : list regex) (c : str) : Prop :=
  Forall (fun r => search r c = None) rules.

(** The number of files written by a stretch of events. *)
Definition count_wrote (evs : list event) : nat :=
  length (List.filter (fun e => match e with Wrote _ _ => true | Print _ => false end) evs).

(** No proper part of [l] is both a beginning and an end of it, so two
    occurrences of [l] never overlap. *)
Definition border_free (l : str) : bool :=
  forallb (fun k => negb (str_eqb (firstn k l) (skipn (length l - k) l)))
          (List.seq 1 (length l - 1)).

(** The world after further events. *)
Definition emitted (w : world) (evs : list event) : world :=
  World (dirs w) (files w) (out w ++ evs).

(** The line a per-file function prints for an exception. *)
Definition error_line (file_path : str) (e : exn) : str :=
  u "Ошибка при обработке файла " ++ file_path ++ u ": " ++ e.

(** The summary line of a run. *)
Definition count_line (n : nat) : str :=
  u "Исправлено файлов: " ++ str_of_nat n.

(** The scan reaches the end of [pre] without a match: at no position of
    [pre] does the pattern match the text [pre ++ t] from there on. *)
Fixpoint no_match_starts (r : regex) (pre t : str) : bool :=
  match pre with
  | [] => true
  | _ :: pre' =>
      match match_here r (pre ++ t) with
      | None => no_match_starts r pre' t
      | Some _ => false
      end
  end.

(** A per-file function writes the file exactly when the rewriting changes
    its text [c]: then the file holds the new text and the write and the
    report are the only things that happen; otherwise nothing happens. *)
Definition writes_iff_changed (rewrite : str -> str)
    (fix_file : str -> IO bool) (path c : str) (w : world) : Prop :=
  (rewrite c <> c ->
   fix_file path w =
   (inr true,
    World (dirs w) (<[path := File (inr (rewrite c)) None]> (files w))
          (out w ++ [Wrote path (rewrite c);
                     Print (u "Исправлен файл: " ++ path)]))) /\
  (rewrite c = c -> fix_file path w = (inr false, w)) /\
  ((exists x, In (Wrote path x)
                 (skipn (length (out w)) (out (snd (fix_file path w)))))
   <-> rewrite c <> c).

(** The reading of "inserted immediately after the message field": in
    [text], an occurrence of [field] is followed, blanks apart, by [next]. *)
Fixpoint skip_spaces (s : str) : str :=
  match s with
  | c :: s' => if is_space c then skip_spaces s' else s
  | [] => []
  end.

Fixpoint followed_by (field next text : str) : bool :=
  match lit_rest field text with
  | Some t => startswith next (skip_spaces t)
  | None => false
  end ||
  match text with
  | [] => false
  | _ :: text' => followed_by field next text'
  end.

(** A match object for a text taken as the whole match. *)
Definition whole (s : str) : found := Found [] s [].

(** A block that rule 1 of fix_all_warnings.py leaves alone: it has its
    category, or no line of it contains [message:]. *)
Definition settled_block (f : found) : bool :=
  contains (u "category:") (matched f) ||
  forallb (fun l => negb (contains (u "message:") l)) (split_lines (matched f)).

Definition has_category (f : found) : bool :=
  contains (u "category:") (matched f).

Definition no_match (r : regex) (c : str) : bool :=
  match search r c with None => true | Some _ => false end.

(** *** Texts used as examples *)

(** A push of a plain quoted string, and a push of a quoted string with a
    bracket in it that is turned into a [String]. *)
Definition plain_push : str :=
  u "warnings.push(" ++ dq ++ u "unused import" ++ dq ++ u ");".

Definition bracket_push : str :=
  u "warnings.push(" ++ dq ++ u "cycle (a -> b)" ++ dq ++ u ".to_string());".

(** A doubly wrapped timestamp whose inner expression is a call. *)
Definition nested_now : str :=
  u "Some(Some(Utc::now()).to_rfc3339()).to_rfc3339()".

(** Pushes of a field access that the pattern of the second loop of
    fix_all_warnings.py does not cover: the inner expression has a closing
    bracket, the collection is not reached through a dot, the field is not
    [message]. *)
Definition uncovered_pushes : str :=
  u "c.warnings.push(get(w).message); warnings.push(w.message); c.warnings.push(w.text);".





(** Worlds with one Rust file [src/a.rs] and one other file in [src]. *)
Definition one_file_world (content : str) (write_error : option write_failure)
    : world :=
  World {[ u "src" := [u "a.rs"; u "notes.txt"] ]}
        {[ u "src/a.rs" := File (inr content) write_error ]}
        [].

(** The file has nothing for any rule. *)
Definition quiet_world : world := one_file_world (u "fn main() {}") None.

(** The file has work for fix_chrono.py only. *)
Definition chrono_world : world :=
  one_file_world (u "let t = chrono::Some(x);") None.

(** The file has work for the second loop of fix_all_warnings.py only. *)
Definition message_world : world :=
  one_file_world (u "c.warnings.push(w.message);") None.

(** A file in [src] that is not valid UTF-8: reading it raises
    [UnicodeDecodeError]. *)
Definition invalid_start_byte : exn :=
  u "'utf-8' codec can't decode byte 0xff in position 0: invalid start byte".

Definition undecodable_world : world :=
  World {[ u "src" := [u "a.rs"; u "notes.txt"] ]}
        {[ u "src/a.rs" := File (inl invalid_start_byte) None ]}
        [].

(** The file of [message_world], and no room left to write it. *)
Definition no_space : exn := u "[Errno 28] No space left on device".

Definition full_disk_world : world :=
  one_file_world (u "c.warnings.push(w.message);") (Some (WriteFails no_space)).

(** A record literal written on one line. *)
Definition one_line_record : str :=
  u "AnalysisWarning { message: " ++ dq ++ u "High complexity" ++ dq ++
  u ".to_string(), level: Priority::High }".

(** A record literal whose message line holds a second field. *)
Definition record_two_fields_on_line : str :=
  u "AnalysisWarning {" ++ nl ++
  u "    message: " ++ dq ++ u "High complexity" ++ dq ++
  u ".to_string(), level: Priority::High," ++ nl ++
  u "    capsule_id: None," ++ nl ++
  u "}".

Definition complexity_message_field : str :=
  u "message: " ++ dq ++ u "High complexity" ++ dq ++ u ".to_string(),".

(** A record literal with one field per line. *)
Definition record_by_lines : str :=
  u "AnalysisWarning {" ++ nl ++
  u "    message: " ++ dq ++ u "Cycle found" ++ dq ++ u ".to_string()," ++ nl ++
  u "    level: Priority::High," ++ nl ++
  u "}".

(** A record literal that has its category. *)
Definition record_with_category : str :=
  u "AnalysisWarning { message: m, category: c, capsule_id: None, suggestion: None }".

(** The match of the record pattern of fix_analysis_warnings.py on it. *)
Definition record_with_category_match : found :=
  Found [u "AnalysisWarning { message: m, category: c,";
         u " capsule_id: None, suggestion: None "; u "}"]
        record_with_category [].

(** A record literal without a message line. *)
Definition record_without_message : str :=
  u "AnalysisWarning {" ++ nl ++ u "    level: Priority::Low," ++ nl ++ u "}".

(** ** Notions used in the proofs *)

Definition piece_text (p : piece) : str :=
  match p with
  | Keep c => [c]
  | Hit f => matched f
  end.

(** A pattern that cannot match the empty text. *)
Definition never_empty (r : regex) : Prop :=
  forall s f, In f (alts r s) -> matched f <> [].

(** A syntactic test: the pattern has to consume a character. *)
Fixpoint consumes (r : regex) : bool :=
  match r with
  | Lit l => match l with [] => false | _ :: _ => true end
  | Star _ | StarLazy _ => false
  | Plus _ => true
  | Cat r1 r2 => consumes r1 || consumes r2
  | Grp r' => consumes r'
  end.

(** What a way of matching looks like: the text matched and its groups,
    read off the pattern. *)
Inductive derives : regex -> str -> list str -> Prop :=
| D_Lit l : derives (Lit l) l []
| D_Star k m : forallb (cmem k) m = true -> derives (Star k) m []
| D_StarLazy k m : forallb (cmem k) m = true -> derives (StarLazy k) m []
| D_Plus k m :
    m <> [] -> forallb (cmem k) m = true -> derives (Plus k) m []
| D_Cat r1 r2 m1 m2 g1 g2 :
    derives r1 m1 g1 -> derives r2 m2 g2 ->
    derives (Cat r1 r2) (m1 ++ m2) (g1 ++ g2)
| D_Grp r m g : derives r m g -> derives (Grp r) m (m :: g).

Definition cat_found (f1 f2 : found) : found :=
  Found (groups f1 ++ groups f2) (matched f1 ++ matched f2) (after f2).

Definition grp_found (f : found) : found :=
  Found (matched f :: groups f) (matched f) (after f).

(** The first way of [r1] after which [r2] matches. *)
Fixpoint first_cat (r2 : regex) (l : list found) : option found :=
  match l with
  | [] => None
  | f1 :: l' =>
      match match_here r2 (after f1) with
      | Some f2 => Some (cat_found f1 f2)
      | None => first_cat r2 l'
      end
  end.

(** The text [t] does not go on with a character of class [k]. *)
Definition stops (k : cclass) (t : str) : Prop :=
  match t with
  | [] => True
  | c :: _ => cmem k c = false
  end.

Definition rparen : char := 41%N.

(** ** The effect of a run on the files *)

(** What a per-file pass with the rewriting [rewrite] makes of a file: the
    file with the new text when it can be read, its text changes and it can
    be written; the empty file when its text changes and the writing fails
    after [open] has truncated it; the file as it was otherwise. *)
Definition fixed_file (rewrite : str -> str) (f : file) : file :=
  match text f with
  | inr c =>
      if str_eqb (rewrite c) c then f
      else match write_error f with
           | None => File (inr (rewrite c)) None
           | Some (OpenFails _) => f
           | Some (WriteFails _) => File (inr []) (write_error f)
           end
  | inl _ => f
  end.

(** The files after a loop over [rust_files] that passes each of them. *)
Definition fix_files (rewrite : str -> str) (rust_files : list str)
    (fs : gmap (list N) file) : gmap (list N) file :=
  fold_left
    (fun fs file_name => alter (fixed_file rewrite) (path_join src_dir file_name) fs)
    rust_files fs.

(** The paths of the files written by a stretch of events. *)
Definition written_paths (evs : list event) : list str :=
  flat_map (fun e => match e with Wrote p _ => [p] | Print _ => [] end) evs.

(** The substitution of the second loop of fix_all_warnings.py. *)
Definition unwrap_text (content : str) : str :=
  sub FixAllWarnings.pattern_message FixAllWarnings.unwrap_message content.

(** A directory with a file that cannot be decoded, a file with work for
    fix_chrono.py and a file that is not a Rust file. *)
Definition mixed_world : world :=
  World {[ u "src" := [u "bad.rs"; u "good.rs"; u "notes.txt"] ]}
        (<[ u "src/bad.rs" := File (inl (u "invalid start byte")) None ]>
         (<[ u "src/good.rs" := File (inr (u "let t = chrono::Some(x);")) None ]>
          {[ u "src/notes.txt" := File (inr (u "chrono::Some(")) None ]}))
        [].

(** A world without the directory [src]. *)
Definition empty_world : world := World ∅ ∅ [].

Definition semicolon : char := 59%N.
Definition comma : char := 44%N.
Definition rbrace : char := 125%N.

(** A record literal with its four fields and no category, and the match
    of the record pattern of fix_analysis_warnings.py on it. *)
Definition four_field_record : str :=
  u "AnalysisWarning { message: m, level: l, capsule_id: None, suggestion: None }".

Definition four_field_record_match : found :=
  Found [u "AnalysisWarning { message: m, level: l,";
         u " capsule_id: None, suggestion: None "; u "}"]
        four_field_record [].

(** The text behind the first closing brace of a record whose first field
    holds a nested record. *)
Definition nested_block_rest : str :=
  u "," ++ nl ++ u "    message: m," ++ nl ++ u "};".

(** * Properties *)

(** ** Text *)

Lemma char_eqb_eq a b : char_eqb a b = true <-> a = b.
Proof. unfold char_eqb. apply N.eqb_eq. Qed.

Lemma char_eqb_refl a : char_eqb a a = true.
Proof. apply char_eqb_eq. reflexivity. Qed.

Lemma char_eqb_neq a b : char_eqb a b = false <-> a <> b.
Proof. unfold char_eqb. apply N.eqb_neq. Qed.

Lemma str_eqb_eq a b : str_eqb a b = true <-> a = b.
Proof.
  revert b. induction a as [|x a IH]; intros [|y b]; simpl; split;
    try congruence; try reflexivity.
  - intros H. apply andb_true_iff in H as [Hx Hab].
    apply char_eqb_eq in Hx. apply IH in Hab. congruence.
  - intros H. injection H as -> ->. rewrite char_eqb_refl. simpl.
    apply IH. reflexivity.
Qed.

Lemma str_eqb_neq a b : str_eqb a b = false <-> a <> b.
Proof.
  split.
  - intros H E. apply str_eqb_eq in E. congruence.
  - intros H. destruct (str_eqb a b) eqn:E; [|reflexivity].
    apply str_eqb_eq in E. contradiction.
Qed.

Lemma startswith_spec p s : startswith p s = true <-> exists t, s = p ++ t.
Proof.
  revert s. induction p as [|a p IH]; intros s; simpl.
  - split; [intros _; exists s; reflexivity | reflexivity].
  - destruct s as [|c s].
    + split; [discriminate | intros [t Ht]; discriminate].
    + rewrite andb_true_iff, char_eqb_eq, IH. split.
      * intros [-> [t ->]]. exists t. reflexivity.
      * intros [t Ht]. injection Ht as -> ->. split; [reflexivity | eauto].
Qed.

Lemma startswith_app p t : startswith p (p ++ t) = true.
Proof. apply startswith_spec. eauto. Qed.

Lemma contains_spec p s :
  contains p s = true <-> exists a b, s = a ++ p ++ b.
Proof.
  induction s as [|c s IH]; simpl.
  - rewrite orb_false_r, startswith_spec. split.
    + intros [t Ht]. exists [], t. exact Ht.
    + intros [a [b H]]. destruct a; [|discriminate]. simpl in H. eauto.
  - rewrite orb_true_iff, startswith_spec, IH. split.
    + intros [[t Ht] | [a [b Hab]]].
      * exists [], t. exact Ht.
      * exists (c :: a), b. simpl. congruence.
    + intros [[|x a] [b H]]; simpl in H.
      * left. eauto.
      * right. injection H as -> ->. eauto.
Qed.

Lemma split_lines_not_nil s : split_lines s <> [].
Proof.
  destruct s as [|c s]; simpl; [discriminate|].
  destruct (char_eqb c newline); [discriminate|].
  destruct (split_lines s); discriminate.
Qed.

(** Joining the lines of a text with newlines gives the text back. *)
Lemma join_split_lines s : join_lines (split_lines s) = s.
Proof.
  induction s as [|c s IH]; [reflexivity|].
  simpl. destruct (char_eqb c newline) eqn:E.
  - apply char_eqb_eq in E. subst c.
    pose proof (split_lines_not_nil s) as Hne.
    simpl. destruct (split_lines s) as [|l ls]; [contradiction|].
    simpl app. rewrite IH. reflexivity.
  - pose proof (split_lines_not_nil s) as Hne.
    destruct (split_lines s) as [|l ls]; [contradiction|].
    rewrite <- IH. destruct ls; reflexivity.
Qed.

(** ** The matcher *)

Lemma lit_rest_spec l s t : lit_rest l s = Some t <-> s = l ++ t.
Proof.
  revert s. induction l as [|a l IH]; intros s; simpl.
  - split; congruence.
  - destruct s as [|c s]; [split; discriminate|].
    destruct (char_eqb a c) eqn:E.
    + apply char_eqb_eq in E. subst c. rewrite IH. split; congruence.
    + apply char_eqb_neq in E. split; [discriminate | congruence].
Qed.

Lemma lit_rest_app l t : lit_rest l (l ++ t) = Some t.
Proof. apply lit_rest_spec. reflexivity. Qed.

Lemma runs_sound k s m t :
  In (m, t) (runs k s) -> s = m ++ t /\ forallb (cmem k) m = true.
Proof.
  revert m t. induction s as [|c s IH]; intros m t; simpl.
  - intros [H | []]. injection H as <- <-. auto.
  - intros [H | H].
    + injection H as <- <-. auto.
    + destruct (cmem k c) eqn:E; [|contradiction].
      apply in_map_iff in H as [[m' t'] [Heq Hin]]. simpl in Heq.
      injection Heq as <- <-. apply IH in Hin as [-> Hall].
      simpl. rewrite E, Hall. auto.
Qed.

(** Every way of matching splits the text into what is matched and what
    follows. *)
Lemma alts_sound r : forall s f, In f (alts r s) -> s = matched f ++ after f.
Proof.
  induction r as [l | k | k | k | r1 IH1 r2 IH2 | r IH]; intros s f; simpl.
  - destruct (lit_rest l s) as [t|] eqn:E; [|contradiction].
    intros [<- | []]. simpl. apply lit_rest_spec. exact E.
  - intros H. apply in_map_iff in H as [[m t] [<- H]].
    apply in_rev in H. apply runs_sound in H as [-> _]. reflexivity.
  - intros H. apply in_map_iff in H as [[m t] [<- H]].
    apply runs_sound in H as [-> _]. reflexivity.
  - intros H. apply in_map_iff in H as [[m t] [<- H]].
    apply filter_In in H as [H _].
    apply in_rev in H. apply runs_sound in H as [-> _]. reflexivity.
  - intros H. apply in_flat_map in H as [f1 [H1 H]].
    apply in_map_iff in H as [f2 [<- H2]]. simpl.
    apply IH1 in H1. apply IH2 in H2. rewrite <- app_assoc, <- H2. exact H1.
  - intros H. apply in_map_iff in H as [f' [<- H]]. simpl. apply IH, H.
Qed.

Lemma match_here_in r s f : match_here r s = Some f -> In f (alts r s).
Proof.
  unfold match_here. destruct (alts r s); simpl; [discriminate|].
  intros H. injection H as ->. left. reflexivity.
Qed.

Lemma match_here_sound r s f :
  match_here r s = Some f -> s = matched f ++ after f.
Proof. intros H. apply (alts_sound r). apply match_here_in, H. Qed.

(** ** The scan *)

Lemma scan_n_enough r n : forall m s,
  length s <= n -> length s <= m -> scan_n r n s = scan_n r m s.
Proof.
  induction n as [|n IH]; intros m s Hn Hm.
  - destruct s; [|simpl in Hn; lia]. destruct m; reflexivity.
  - destruct s as [|c s]; [destruct m; reflexivity|].
    destruct m as [|m]; [simpl in Hm; lia|].
    simpl in Hn, Hm. simpl.
    destruct (match_here r (c :: s)) as [f|] eqn:E.
    + destruct (matched f) as [|x mt] eqn:Em.
      * f_equal. f_equal. apply IH; lia.
      * f_equal. apply match_here_sound in E. rewrite Em in E.
        simpl in E. injection E as _ E.
        assert (length (after f) <= length s)
          by (rewrite E, length_app; lia).
        apply IH; lia.
    + f_equal. apply IH; lia.
Qed.

Lemma scan_nil r :
  scan r [] = match match_here r [] with Some f => [Hit f] | None => [] end.
Proof. reflexivity. Qed.

(** The equation of the scan, free of the step bound. *)
Lemma scan_cons r c s :
  scan r (c :: s) =
  match match_here r (c :: s) with
  | Some f =>
      match matched f with
      | [] => Hit f :: Keep c :: scan r s
      | _ :: _ => Hit f :: scan r (after f)
      end
  | None => Keep c :: scan r s
  end.
Proof.
  unfold scan. simpl.
  destruct (match_here r (c :: s)) as [f|] eqn:E; [|reflexivity].
  destruct (matched f) as [|x mt] eqn:Em; [reflexivity|].
  f_equal. apply match_here_sound in E. rewrite Em in E.
  simpl in E. injection E as _ E.
  apply scan_n_enough; [rewrite E, length_app; lia | lia].
Qed.

(** The pieces of a scan, put back together, are the text scanned. *)
Lemma scan_text r (Hr : never_empty r) s :
  flat_map piece_text (scan r s) = s.
Proof.
  remember (length s) as n eqn:Hn.
  revert s Hn. induction n as [n IH] using lt_wf_ind. intros s Hn.
  destruct s as [|c s].
  - rewrite scan_nil. destruct (match_here r []) as [f|] eqn:E; [|reflexivity].
    exfalso. pose proof (match_here_sound _ _ _ E) as Hs.
    apply match_here_in, Hr in E.
    destruct (matched f); [congruence | discriminate].
  - rewrite scan_cons. destruct (match_here r (c :: s)) as [f|] eqn:E.
    + pose proof (match_here_sound _ _ _ E) as Hs.
      apply match_here_in, Hr in E.
      destruct (matched f) as [|x mt] eqn:Em; [congruence|].
      simpl. rewrite Em.
      rewrite (IH (length (after f))); [symmetry; exact Hs | | reflexivity].
      subst n. rewrite Hs, length_app. simpl. lia.
    + simpl. f_equal. apply (IH (length s)); [subst n; simpl; lia | reflexivity].
Qed.

Lemma sub_nil r repl : never_empty r -> sub r repl [] = [].
Proof.
  intros Hr. unfold sub. rewrite scan_nil.
  destruct (match_here r []) as [f|] eqn:E; [|reflexivity].
  exfalso. pose proof (match_here_sound _ _ _ E) as Hs.
  apply match_here_in, Hr in E.
  destruct (matched f); [congruence | discriminate].
Qed.

Lemma sub_keep r repl c s :
  match_here r (c :: s) = None -> sub r repl (c :: s) = c :: sub r repl s.
Proof. intros E. unfold sub. rewrite scan_cons, E. reflexivity. Qed.

Lemma sub_hit r repl s f :
  never_empty r -> match_here r s = Some f ->
  sub r repl s = repl f ++ sub r repl (after f).
Proof.
  intros Hr E. pose proof (match_here_in _ _ _ E) as Hin. apply Hr in Hin.
  destruct s as [|c s].
  - apply match_here_sound in E. destruct (matched f); [congruence | discriminate].
  - unfold sub. rewrite scan_cons, E.
    destruct (matched f); [congruence | reflexivity].
Qed.

(** A replacement that gives back every match it is handed changes
    nothing. *)
Lemma sub_fixed r repl s :
  never_empty r ->
  Forall (fun f => repl f = matched f) (finditer r s) ->
  sub r repl s = s.
Proof.
  intros Hr Hall. rewrite <- (scan_text r Hr s) at 2.
  unfold sub, finditer in *. induction (scan r s) as [|p ps IH]; [reflexivity|].
  simpl in *. destruct p as [c | f].
  - simpl in *. f_equal. apply IH, Hall.
  - simpl in Hall. inversion Hall as [|? ? Hf Hrest]; subst.
    rewrite Hf. f_equal. apply IH, Hrest.
Qed.

(** Where [re.search] finds nothing, [re.sub] returns its argument. *)
Lemma sub_no_match r repl s :
  never_empty r -> search r s = None -> sub r repl s = s.
Proof.
  intros Hr Hs. apply sub_fixed; [exact Hr|].
  unfold search in Hs. destruct (finditer r s); [constructor | discriminate].
Qed.

Lemma consumes_never_empty r : consumes r = true -> never_empty r.
Proof.
  unfold never_empty.
  induction r as [l | k | k | k | r1 IH1 r2 IH2 | r IH]; simpl; intros Hc s f Hin;
    try discriminate.
  - destruct (lit_rest l s); [|contradiction]. destruct Hin as [<- | []].
    simpl. destruct l; [discriminate | discriminate].
  - apply in_map_iff in Hin as [[m t] [<- Hin]].
    apply filter_In in Hin as [_ Hne]. unfold nonempty_run in Hne. simpl in *.
    destruct m; [discriminate | discriminate].
  - apply in_flat_map in Hin as [f1 [H1 Hin]].
    apply in_map_iff in Hin as [f2 [<- H2]]. simpl.
    apply orb_true_iff in Hc as [Hc | Hc].
    + specialize (IH1 Hc _ _ H1). destruct (matched f1); [congruence | discriminate].
    + specialize (IH2 Hc _ _ H2). destruct (matched f2); [congruence|].
      destruct (matched f1); discriminate.
  - apply in_map_iff in Hin as [f' [<- Hin]]. simpl. eapply IH; eauto.
Qed.

Lemma alts_derives r : forall s f,
  In f (alts r s) -> derives r (matched f) (groups f).
Proof.
  induction r as [l | k | k | k | r1 IH1 r2 IH2 | r IH]; intros s f; simpl.
  - destruct (lit_rest l s); [|contradiction]. intros [<- | []]. constructor.
  - intros H. apply in_map_iff in H as [[m t] [<- H]].
    apply in_rev, runs_sound in H as [_ H]. constructor. exact H.
  - intros H. apply in_map_iff in H as [[m t] [<- H]].
    apply runs_sound in H as [_ H]. constructor. exact H.
  - intros H. apply in_map_iff in H as [[m t] [<- H]].
    apply filter_In in H as [H Hne].
    apply in_rev, runs_sound in H as [_ H]. constructor; [|exact H].
    unfold nonempty_run in Hne. simpl in *. destruct m; [discriminate | discriminate].
  - intros H. apply in_flat_map in H as [f1 [H1 H]].
    apply in_map_iff in H as [f2 [<- H2]]. simpl.
    constructor; eauto.
  - intros H. apply in_map_iff in H as [f' [<- H]]. simpl.
    constructor. eauto.
Qed.

(** *** Computing the first match on a text that is partly known *)

Lemma match_here_cat r1 r2 s :
  match_here (Cat r1 r2) s = first_cat r2 (alts r1 s).
Proof.
  unfold match_here. simpl alts.
  induction (alts r1 s) as [|f1 l IH]; [reflexivity|].
  cbn [flat_map first_cat]. unfold match_here.
  destruct (alts r2 (after f1)) as [|f2 l2]; [exact IH | reflexivity].
Qed.

Lemma first_cat_app r2 l1 l2 :
  first_cat r2 (l1 ++ l2) =
  match first_cat r2 l1 with
  | Some f => Some f
  | None => first_cat r2 l2
  end.
Proof.
  induction l1 as [|f1 l1 IH]; [reflexivity|]. simpl.
  destruct (match_here r2 (after f1)); [reflexivity | exact IH].
Qed.

Lemma match_here_cat_head r1 r2 s f1 f2 :
  match_here r1 s = Some f1 -> match_here r2 (after f1) = Some f2 ->
  match_here (Cat r1 r2) s = Some (cat_found f1 f2).
Proof.
  intros H1 H2. rewrite match_here_cat. unfold match_here in H1.
  destruct (alts r1 s) as [|f l]; [discriminate|]. simpl in H1.
  injection H1 as ->. simpl. rewrite H2. reflexivity.
Qed.

Lemma match_here_grp r s :
  match_here (Grp r) s = option_map grp_found (match_here r s).
Proof. unfold match_here. simpl. destruct (alts r s); reflexivity. Qed.

Lemma match_here_lit l t : match_here (Lit l) (l ++ t) = Some (Found [] l t).
Proof. unfold match_here. simpl. rewrite lit_rest_app. reflexivity. Qed.

Lemma runs_stops k t : stops k t -> runs k t = [([], t)].
Proof. destruct t as [|c t]; simpl; [reflexivity|]. intros ->. reflexivity. Qed.

(** The longest run comes first when the runs are tried greedily; after a
    prefix [a] of the class, the greedy runs of [a ++ b] begin with those of
    [b], each extended by [a]. *)
Lemma greedy_runs_app k a b :
  forallb (cmem k) a = true ->
  exists rest,
    rev (runs k (a ++ b)) =
    map (fun mt => (a ++ fst mt, snd mt)) (rev (runs k b)) ++ rest.
Proof.
  induction a as [|c a IH]; simpl; intros Ha.
  - exists []. rewrite app_nil_r. rewrite <- (map_id (rev (runs k b))) at 1.
    apply map_ext. intros [m t]. reflexivity.
  - apply andb_true_iff in Ha as [Hc Ha]. rewrite Hc.
    destruct (IH Ha) as [rest Hrest].
    exists (map (fun mt => (c :: fst mt, snd mt)) rest ++ [([], c :: a ++ b)]).
    rewrite <- List.map_rev, Hrest, List.map_app, List.map_map. simpl.
    rewrite <- app_assoc. reflexivity.
Qed.

Lemma match_here_star k a t :
  forallb (cmem k) a = true -> stops k t ->
  match_here (Star k) (a ++ t) = Some (Found [] a t).
Proof.
  intros Ha Ht. unfold match_here. simpl.
  destruct (greedy_runs_app k a t Ha) as [rest ->].
  rewrite (runs_stops k t Ht). simpl. rewrite app_nil_r. reflexivity.
Qed.

Lemma alts_plus_app k a b :
  a <> [] -> forallb (cmem k) a = true ->
  exists rest,
    alts (Plus k) (a ++ b) =
    map (fun mt => Found [] (a ++ fst mt) (snd mt)) (rev (runs k b)) ++ rest.
Proof.
  intros Hne Ha. simpl.
  destruct (greedy_runs_app k a b Ha) as [rest ->].
  exists (map of_run (List.filter nonempty_run rest)).
  rewrite List.filter_app, List.map_app. f_equal.
  induction (rev (runs k b)) as [|[m t] l IH]; [reflexivity|].
  simpl. unfold nonempty_run at 1. simpl.
  destruct a as [|c a]; [congruence|]. simpl. f_equal. exact IH.
Qed.

Lemma match_here_plus k a t :
  a <> [] -> forallb (cmem k) a = true -> stops k t ->
  match_here (Plus k) (a ++ t) = Some (Found [] a t).
Proof.
  intros Hne Ha Ht. unfold match_here.
  destruct (alts_plus_app k a t Hne Ha) as [rest ->].
  rewrite (runs_stops k t Ht). simpl. rewrite app_nil_r. reflexivity.
Qed.

(** The scan passes over a stretch in which no match begins. *)
Lemma sub_skip r repl pre t :
  (forall a b, pre = a ++ b -> b <> [] -> match_here r (b ++ t) = None) ->
  sub r repl (pre ++ t) = pre ++ sub r repl t.
Proof.
  induction pre as [|c pre IH]; intros H; [reflexivity|].
  simpl. rewrite sub_keep.
  - f_equal. apply IH. intros a b -> Hb. apply (H (c :: a) b); [reflexivity | exact Hb].
  - apply (H [] (c :: pre)); [reflexivity | discriminate].
Qed.

(** ** Occurrences of a text inside a concatenation *)

Lemma contains_chars p s :
  contains p s = true -> forall c, In c p -> In c s.
Proof.
  rewrite contains_spec. intros [a [b ->]] c Hc.
  apply in_or_app. right. apply in_or_app. left. exact Hc.
Qed.

(** An occurrence of [p] in [x ++ y] lies in [x], or in [y], or runs over
    the seam, and then [y] begins with a character of [p] other than its
    first occurrence position. *)
Lemma contains_app_cases p x y :
  contains p (x ++ y) = true ->
  contains p x = true \/ contains p y = true \/
  exists c y', y = c :: y' /\ In c (tl p).
Proof.
  rewrite !contains_spec. intros [a [b H]].
  apply app_eq_app in H as [l [[Hx Hp] | [Ha Hy]]].
  - symmetry in Hp. apply app_eq_app in Hp as [l2 [[Hl Hb] | [Hp Hy]]].
    + left. exists a, l2. rewrite Hx, Hl. reflexivity.
    + destruct l as [|c1 l'].
      * right. left. exists [], b. simpl in *. subst. reflexivity.
      * destruct l2 as [|c l2'].
        -- left. exists a, []. rewrite Hx, Hp, !app_nil_r. reflexivity.
        -- right. right. exists c, (l2' ++ b). split; [exact Hy|].
           rewrite Hp. simpl. apply in_or_app. right. left. reflexivity.
  - right. left. exists l, b. exact Hy.
Qed.

Lemma forallb_In {A} (f : A -> bool) l x :
  forallb f l = true -> In x l -> f x = true.
Proof. intros H Hin. rewrite forallb_forall in H. apply H, Hin. Qed.

(** ** Rule 1 of fix_all_warnings.py: the replacement function *)

Section AddCategory.

Variable lower : str -> str.

Abbreviation add_step := (FixAllWarnings.add_step lower).
Abbreviation category_of := (FixAllWarnings.category_of lower).
Abbreviation add_category_if_missing := (FixAllWarnings.add_category_if_missing lower).

Lemma category_of_by_keywords line :
  category_of line = category_by_keywords lower line.
Proof.
  unfold FixAllWarnings.category_of, category_by_keywords, keyword_groups.
  simpl.
  repeat match goal with
         | |- context [contains ?k (lower line)] =>
             destruct (contains k (lower line)); simpl; try reflexivity
         end.
Qed.

Lemma add_step_added lines : forall acc,
  fold_left add_step lines (acc, true) = (acc ++ lines, true).
Proof.
  induction lines as [|l lines IH]; intros acc; simpl.
  - rewrite app_nil_r. reflexivity.
  - unfold FixAllWarnings.add_step at 2. simpl.
    rewrite andb_false_r, IH, <- app_assoc. reflexivity.
Qed.

Lemma add_step_no_message lines : forall acc,
  (forall l, In l lines -> contains (u "message:") l = false) ->
  fold_left add_step lines (acc, false) = (acc ++ lines, false).
Proof.
  induction lines as [|l lines IH]; intros acc H; simpl.
  - rewrite app_nil_r. reflexivity.
  - unfold FixAllWarnings.add_step at 2. simpl.
    rewrite (H l (or_introl eq_refl)). simpl.
    rewrite IH, <- app_assoc; [reflexivity|].
    intros l' Hl'. apply H. right. exact Hl'.
Qed.

Lemma add_step_first_message before line rest :
  (forall l, In l before -> contains (u "message:") l = false) ->
  contains (u "message:") line = true ->
  fold_left add_step (before ++ line :: rest) ([], false) =
  (before ++ line ::
     FixAllWarnings.category_field (FixAllWarnings.leading_spaces line)
       (category_of line) :: rest, true).
Proof.
  intros Hb Hl. rewrite fold_left_app, (add_step_no_message before [] Hb).
  simpl. unfold FixAllWarnings.add_step at 2. simpl. rewrite Hl. simpl.
  rewrite add_step_added, <- !app_assoc. reflexivity.
Qed.

Lemma add_category_present m :
  contains (u "category:") (matched m) = true ->
  add_category_if_missing m = matched m.
Proof.
  intros H. unfold FixAllWarnings.add_category_if_missing. rewrite H. reflexivity.
Qed.

Lemma add_category_no_message m :
  (forall l, In l (split_lines (matched m)) -> contains (u "message:") l = false) ->
  add_category_if_missing m = matched m.
Proof.
  intros H. unfold FixAllWarnings.add_category_if_missing.
  destruct (contains (u "category:") (matched m)); [reflexivity|].
  rewrite (add_step_no_message _ [] H). simpl. apply join_split_lines.
Qed.

Lemma add_category_after_message m before line rest :
  contains (u "category:") (matched m) = false ->
  split_lines (matched m) = before ++ line :: rest ->
  (forall l, In l before -> contains (u "message:") l = false) ->
  contains (u "message:") line = true ->
  add_category_if_missing m =
  join_lines
    (before ++ line ::
       (FixAllWarnings.leading_spaces line ++ u "category: " ++ dq ++
        category_by_keywords lower line ++ dq ++ u ".to_string(),") :: rest).
Proof.
  intros Hc Hs Hb Hl. unfold FixAllWarnings.add_category_if_missing.
  rewrite Hc, Hs, (add_step_first_message _ _ _ Hb Hl). simpl.
  rewrite category_of_by_keywords. reflexivity.
Qed.

End AddCategory.

(** With one field per line, the category does follow the message field. *)
Lemma category_follows_message_field_by_lines :
  followed_by (u "message: " ++ dq ++ u "Cycle found" ++ dq ++ u ".to_string(),")
    (u "category:")
    (FixAllWarnings.add_category_if_missing lower_basic (whole record_by_lines))
  = true.
Proof. vm_compute. reflexivity. Qed.

(** For a literal written on one line the line that contains [message:] is
    the whole literal: the field is put after the closing brace. *)
Lemma one_line_record_category_after_brace :
  FixAllWarnings.add_category_if_missing lower_basic (whole one_line_record) =
  one_line_record ++ nl ++
  u "category: " ++ dq ++ u "complexity" ++ dq ++ u ".to_string(),".
Proof. vm_compute. reflexivity. Qed.

(** ** Reading a match off a pattern *)

Lemma derives_lit_inv l m g : derives (Lit l) m g -> m = l /\ g = [].
Proof. inversion 1; subst; auto. Qed.

Lemma derives_star_inv k m g :
  derives (Star k) m g -> forallb (cmem k) m = true /\ g = [].
Proof. inversion 1; subst; auto. Qed.

Lemma derives_star_lazy_inv k m g :
  derives (StarLazy k) m g -> forallb (cmem k) m = true /\ g = [].
Proof. inversion 1; subst; auto. Qed.

Lemma derives_plus_inv k m g :
  derives (Plus k) m g -> (m <> [] /\ forallb (cmem k) m = true) /\ g = [].
Proof. inversion 1; subst; auto. Qed.

Lemma derives_cat_inv r1 r2 m g :
  derives (Cat r1 r2) m g ->
  exists m1 m2 g1 g2,
    m = m1 ++ m2 /\ g = g1 ++ g2 /\ derives r1 m1 g1 /\ derives r2 m2 g2.
Proof. inversion 1; subst. eauto 10. Qed.

Lemma derives_grp_inv r m g :
  derives (Grp r) m g -> exists g', g = m :: g' /\ derives r m g'.
Proof. inversion 1; subst. eauto. Qed.

(** Take a derivation of a known pattern apart, down to its literals and
    runs. *)
Ltac derives_inv :=
  repeat match goal with
         | H : derives (Cat _ _) _ _ |- _ =>
             apply derives_cat_inv in H as (? & ? & ? & ? & ? & ? & ? & ?)
         | H : derives (Grp _) _ _ |- _ =>
             apply derives_grp_inv in H as (? & ? & ?)
         | H : derives (Lit _) _ _ |- _ =>
             apply derives_lit_inv in H as [? ?]
         | H : derives (Star _) _ _ |- _ =>
             apply derives_star_inv in H as [? ?]
         | H : derives (StarLazy _) _ _ |- _ =>
             apply derives_star_lazy_inv in H as [? ?]
         | H : derives (Plus _) _ _ |- _ =>
             apply derives_plus_inv in H as [[? ?] ?]
         end.

(** ** The record rule of fix_analysis_warnings.py *)

(** The shape of a match of the record pattern: three groups that make up
    the whole match, the second one opening with blanks and [capsule_id:],
    the third one made of blanks and the closing brace. *)
Lemma record_match_shape s f :
  In f (alts FixAnalysisWarnings.pattern s) ->
  exists g1 ws2 body2 ws3,
    groups f = [g1; ws2 ++ u "capsule_id:" ++ body2; ws3 ++ u "}"] /\
    matched f = g1 ++ (ws2 ++ u "capsule_id:" ++ body2) ++ ws3 ++ u "}" /\
    forallb is_space ws2 = true /\ forallb is_space ws3 = true.
Proof.
  intros H. apply alts_derives in H.
  unfold FixAnalysisWarnings.pattern, seq in H.
  derives_inv. subst.
  simpl in H0. do 4 eexists.
  split; [exact H0|]. split; [exact H|]. split; assumption.
Qed.

Lemma category_seam_chars :
  forallb (fun c => negb (is_space c) && negb (char_eqb c 125) &&
                    negb (char_eqb c 99))
          (tl (u "category:")) = true.
Proof. vm_compute. reflexivity. Qed.

Lemma category_first_char :
  In 99%N (u "category:") /\ is_space 99 = false.
Proof. split; [vm_compute; auto | reflexivity]. Qed.

(** A [category:] inside a match of the record pattern lies in the first or
    in the second group: it cannot run over a seam between groups, nor sit
    among the blanks and the brace of the third. *)
Lemma category_in_prefix_or_middle g1 ws2 body2 ws3 :
  forallb is_space ws2 = true -> forallb is_space ws3 = true ->
  contains (u "category:")
           (g1 ++ (ws2 ++ u "capsule_id:" ++ body2) ++ ws3 ++ u "}") = true ->
  contains (u "category:") g1 = true \/
  contains (u "category:") (ws2 ++ u "capsule_id:" ++ body2) = true.
Proof.
  intros Hws2 Hws3 H.
  pose proof category_seam_chars as Hseam. rewrite forallb_forall in Hseam.
  apply contains_app_cases in H as [H | [H | (c & y' & Hy & Hc)]].
  - left. exact H.
  - apply contains_app_cases in H as [H | [H | (c & y' & Hy & Hc)]].
    + right. exact H.
    + exfalso. destruct category_first_char as [Hin Hsp].
      apply (contains_chars _ _ H) in Hin.
      apply in_app_or in Hin as [Hin | Hin].
      * apply (forallb_In _ _ _ Hws3) in Hin. congruence.
      * vm_compute in Hin. destruct Hin as [Hin | []]. discriminate.
    + exfalso. specialize (Hseam c Hc).
      apply andb_true_iff in Hseam as [Hseam _].
      apply andb_true_iff in Hseam as [Hsp Hbr].
      destruct ws3 as [|w ws3]; simpl in Hy.
      * unfold u in Hy. simpl in Hy. injection Hy as Hy _. subst c.
        discriminate.
      * injection Hy as Hy _. subst w. simpl in Hws3.
        apply andb_true_iff in Hws3 as [Hw _].
        rewrite Hw in Hsp. discriminate.
  - exfalso. specialize (Hseam c Hc).
    apply andb_true_iff in Hseam as [Hseam Hnc].
    apply andb_true_iff in Hseam as [Hsp _].
    destruct ws2 as [|w ws2]; simpl in Hy.
    + unfold u in Hy. simpl in Hy. injection Hy as Hy _. subst c.
      discriminate.
    + injection Hy as Hy _. subst w. simpl in Hws2.
      apply andb_true_iff in Hws2 as [Hw _].
      rewrite Hw in Hsp. discriminate.
Qed.

Lemma replace_warning_present s f :
  In f (alts FixAnalysisWarnings.pattern s) ->
  contains (u "category:") (matched f) = true ->
  FixAnalysisWarnings.replace_warning f = matched f.
Proof.
  intros Hin Hc.
  destruct (record_match_shape s f Hin) as (g1 & ws2 & body2 & ws3 & Hg & Hm & H2 & H3).
  rewrite Hm in Hc.
  apply category_in_prefix_or_middle in Hc; [|assumption|assumption].
  unfold FixAnalysisWarnings.replace_warning, group. rewrite Hg. cbn [nth Nat.sub].
  destruct Hc as [Hc | Hc]; rewrite Hc; [reflexivity | rewrite orb_true_r; reflexivity].
Qed.

(** ** Matches of the call patterns *)

Lemma none_of_forallb c (x : str) :
  ~ In c x -> forallb (cmem (NoneOf [c])) x = true.
Proof.
  induction x as [|d x IH]; [reflexivity|]. intros H. simpl.
  rewrite IH by (intros Hin; apply H; right; exact Hin).
  destruct (char_eqb d c) eqn:E; [|reflexivity].
  apply char_eqb_eq in E. subst d. exfalso. apply H. left. reflexivity.
Qed.

Lemma message_match x post :
  x <> [] -> ~ In rparen x ->
  match_here FixAllWarnings.pattern_message
             (u ".warnings.push(" ++ x ++ u ".message)" ++ post) =
  Some (Found [x] (u ".warnings.push(" ++ x ++ u ".message)") post).
Proof.
  intros Hne Hx. apply (none_of_forallb rparen) in Hx.
  unfold FixAllWarnings.pattern_message, seq.
  rewrite match_here_cat. cbn [alts]. rewrite lit_rest_app. cbn [first_cat after].
  rewrite match_here_cat. cbn [alts].
  destruct (alts_plus_app (NoneOf (u ")")) x (u ".message)" ++ post) Hne Hx)
    as [rest Hrest].
  cbn [alts] in Hrest. rewrite Hrest. rewrite List.map_app, first_cat_app.
  assert (E : first_cat (Lit (u ".message)"))
                (map (fun f => Found (matched f :: groups f) (matched f) (after f))
                   (map (fun mt : str * str => Found [] (x ++ fst mt) (snd mt))
                      (rev (runs (NoneOf (u ")")) (u ".message)" ++ post))))) =
              Some (cat_found (grp_found (Found [] (x ++ []) (u ".message)" ++ post)))
                              (Found [] (u ".message)") post)))
    by (vm_compute; reflexivity).
  rewrite E. unfold cat_found, grp_found. simpl.
  rewrite app_nil_r. reflexivity.
Qed.

Lemma nested_match x post :
  x <> [] -> ~ In rparen x ->
  match_here FixChrono.pattern_nested
             (u "Some(Some(" ++ x ++ u ").to_rfc3339()).to_rfc3339()" ++ post) =
  Some (Found [x] (u "Some(Some(" ++ x ++ u ").to_rfc3339()).to_rfc3339()") post).
Proof.
  intros Hne Hx. apply (none_of_forallb rparen) in Hx.
  unfold FixChrono.pattern_nested, seq.
  erewrite match_here_cat_head; [| apply match_here_lit |].
  2:{ cbn [after]. eapply match_here_cat_head.
      - rewrite match_here_grp.
        rewrite (match_here_plus (NoneOf (u ")")) x _ Hne Hx); [reflexivity|].
        vm_compute. reflexivity.
      - apply match_here_lit. }
  unfold cat_found, grp_found. simpl. reflexivity.
Qed.

Lemma string_warning_match ws e post :
  forallb is_space ws = true -> e <> [] -> ~ In rparen e ->
  match_here FixAllWarnings.pattern_string_warnings
             (ws ++ u "warnings.push(" ++ e ++ u ".to_string()" ++ u ");" ++ post) =
  Some (Found [ws; e ++ u ".to_string()"]
              (ws ++ u "warnings.push(" ++ (e ++ u ".to_string()") ++ u ");")
              post).
Proof.
  intros Hws Hne He. apply (none_of_forallb rparen) in He.
  unfold FixAllWarnings.pattern_string_warnings, seq.
  assert (Hplus :
    match_here (Cat (Plus (NoneOf (u ")"))) (Lit (u ".to_string()")))
               (e ++ u ".to_string()" ++ u ");" ++ post) =
    Some (Found [] (e ++ u ".to_string()") (u ");" ++ post))).
  { rewrite match_here_cat.
    destruct (alts_plus_app (NoneOf (u ")")) e
                (u ".to_string()" ++ u ");" ++ post) Hne He) as [rest ->].
    rewrite first_cat_app.
    assert (E : first_cat (Lit (u ".to_string()"))
                  (map (fun mt : str * str => Found [] (e ++ fst mt) (snd mt))
                     (rev (runs (NoneOf (u ")"))
                                (u ".to_string()" ++ u ");" ++ post)))) =
                Some (cat_found
                        (Found [] (e ++ []) (u ".to_string()" ++ u ");" ++ post))
                        (Found [] (u ".to_string()") (u ");" ++ post))))
      by (vm_compute; reflexivity).
    rewrite E. unfold cat_found. simpl. rewrite app_nil_r. reflexivity. }
  erewrite match_here_cat_head.
  2:{ rewrite match_here_grp, (match_here_star Space ws _ Hws); [reflexivity|].
      vm_compute. reflexivity. }
  2:{ cbn [after grp_found]. eapply match_here_cat_head; [apply match_here_lit|].
      cbn [after]. eapply match_here_cat_head.
      - rewrite match_here_grp, Hplus. reflexivity.
      - apply match_here_lit. }
  unfold cat_found, grp_found. simpl. reflexivity.
Qed.

(** ** Substituting a literal *)

Lemma border_free_spec l p z y :
  border_free l = true -> l = p ++ z -> l = z ++ y -> z <> [] -> p <> [] -> False.
Proof.
  intros Hb Hp Hz Hzne Hpne. unfold border_free in Hb.
  rewrite forallb_forall in Hb.
  assert (Hlen : length l = length p + length z) by (rewrite Hp; apply length_app).
  assert (Hzl : 0 < length z) by (destruct z; [congruence | simpl; lia]).
  assert (Hpl : 0 < length p) by (destruct p; [congruence | simpl; lia]).
  specialize (Hb (length z)).
  rewrite in_seq in Hb. specialize (Hb ltac:(lia)).
  apply negb_true_iff, str_eqb_neq in Hb. apply Hb.
  rewrite Hz at 1. rewrite firstn_app, firstn_all, Nat.sub_diag. simpl.
  rewrite app_nil_r.
  replace (length l - length z) with (length p) by lia.
  rewrite Hp, skipn_app, skipn_all, Nat.sub_diag. reflexivity.
Qed.

Lemma match_here_lit_inv l s f :
  match_here (Lit l) s = Some f -> s = l ++ after f /\ f = Found [] l (after f).
Proof.
  unfold match_here. simpl. destruct (lit_rest l s) as [t|] eqn:E; [|discriminate].
  simpl. intros H. injection H as <-. simpl. apply lit_rest_spec in E. auto.
Qed.

(** Every occurrence of a border-free literal is replaced, whatever stands
    before and after it. *)
Lemma sub_lit_occurrence l v pre post :
  l <> [] -> border_free l = true ->
  sub (Lit l) (fun _ => v) (pre ++ l ++ post) =
  sub (Lit l) (fun _ => v) pre ++ v ++ sub (Lit l) (fun _ => v) post.
Proof.
  intros Hl Hb.
  assert (Hne : never_empty (Lit l))
    by (apply consumes_never_empty; destruct l; [congruence | reflexivity]).
  remember (length pre) as n eqn:Hn. revert pre Hn.
  induction n as [n IH] using lt_wf_ind. intros pre Hn.
  destruct pre as [|c pre].
  - simpl. rewrite (sub_hit _ _ _ _ Hne (match_here_lit l post)).
    rewrite (sub_nil _ _ Hne). reflexivity.
  - destruct (match_here (Lit l) ((c :: pre) ++ l ++ post)) as [f|] eqn:E.
    + pose proof (match_here_lit_inv _ _ _ E) as [Hs Hf].
      assert (Hsplit : exists z, c :: pre = l ++ z /\ after f = z ++ l ++ post).
      { apply app_eq_app in Hs as [z [[Hpre Ht] | [Hlz Hrest]]].
        - exists z. auto.
        - symmetry in Hrest.
          apply app_eq_app in Hrest as [y [[Hzy Hpost] | [Hly Ht]]].
          + exfalso. rewrite Hzy in Hlz.
            assert (Hlen : length l = length (c :: pre) + (length l + length y))
              by (rewrite Hlz at 1; rewrite !length_app; reflexivity).
            simpl in Hlen. lia.
          + destruct z as [|d z].
            * simpl in Hly. rewrite app_nil_r in Hlz. exists [].
              rewrite app_nil_r. split; [congruence|]. simpl. congruence.
            * exfalso.
              apply (border_free_spec l (c :: pre) (d :: z) y Hb Hlz Hly);
                discriminate. }
      destruct Hsplit as [z [Hpre Ht]].
      rewrite (sub_hit _ _ _ _ Hne E). rewrite Ht.
      rewrite (IH (length z)); [| subst n; rewrite Hpre, length_app;
                                  destruct l; [congruence | simpl; lia] | reflexivity].
      rewrite Hpre.
      rewrite (sub_hit _ _ _ _ Hne (match_here_lit l z)). simpl.
      rewrite <- !app_assoc. reflexivity.
    + change ((c :: pre) ++ l ++ post) with (c :: (pre ++ l ++ post)).
      rewrite (sub_keep _ _ _ _ E).
      rewrite (IH (length pre)); [| subst n; simpl; lia | reflexivity].
      rewrite sub_keep; [reflexivity|].
      destruct (match_here (Lit l) (c :: pre)) as [f|] eqn:E'; [|reflexivity].
      apply match_here_lit_inv in E' as [Hs _].
      rewrite Hs, <- app_assoc, match_here_lit in E. discriminate.
Qed.

Lemma chrono_border_free : border_free (u "chrono::Some(") = true.
Proof. vm_compute. reflexivity. Qed.

(** ** Files and output *)

(** What the shared body of the per-file functions does, case by case. *)
Lemma rewrite_file_run rewrite path w :
  rewrite_file rewrite path w =
  match files w !! path with
  | Some f =>
      match text f with
      | inr c =>
          if str_eqb (rewrite c) c then (inr false, w)
          else
            match write_error f with
            | None =>
                (inr true,
                 World (dirs w)
                       (<[path := File (inr (rewrite c)) None]> (files w))
                       (out w ++ [Wrote path (rewrite c);
                                  Print (u "Исправлен файл: " ++ path)]))
            | Some (OpenFails e) =>
                (inr false, emitted w [Print (error_line path e)])
            | Some (WriteFails e) =>
                (inr false,
                 World (dirs w)
                       (<[path := File (inr []) (write_error f)]> (files w))
                       (out w ++ [Print (error_line path e)]))
            end
      | inl e => (inr false, emitted w [Print (error_line path e)])
      end
  | None => (inr false, emitted w [Print (error_line path (no_such_file path))])
  end.
Proof.
  unfold rewrite_file, try_except, bind, read_text, write_text, print, emit, ret.
  destruct (files w !! path) as [f|] eqn:Ef; [|reflexivity].
  destruct (text f) as [e | c]; [reflexivity|].
  destruct (str_eqb (rewrite c) c); simpl; [reflexivity|].
  rewrite Ef. destruct (write_error f) as [[e | e]|]; simpl;
    [reflexivity | reflexivity |].
  rewrite <- app_assoc. reflexivity.
Qed.

(** A per-file function returns, and it reports a file fixed exactly when it
    wrote it. *)
Lemma rewrite_file_returns rewrite path w :
  exists b fs evs,
    rewrite_file rewrite path w = (inr b, World (dirs w) fs (out w ++ evs)) /\
    count_wrote evs = (if b then 1 else 0).
Proof.
  rewrite rewrite_file_run.
  destruct (files w !! path) as [f|].
  - destruct (text f) as [e | c].
    + exists false, (files w), [Print (error_line path e)]. auto.
    + destruct (str_eqb (rewrite c) c).
      * exists false, (files w), []. rewrite app_nil_r. destruct w; auto.
      * destruct (write_error f) as [[e | e]|].
        -- exists false, (files w), [Print (error_line path e)]. auto.
        -- eexists false, _, [Print (error_line path e)]. auto.
        -- eexists true, _, _. split; reflexivity.
  - exists false, (files w), [Print (error_line path (no_such_file path))]. auto.
Qed.

(** A file that cannot be read, or cannot be opened for writing when its
    text changes: the exception is caught, the line printed names the file
    and gives the text of the exception, the file is as it was and counts as
    not fixed. *)
Lemma rewrite_file_error_caught rewrite path w f e :
  files w !! path = Some f ->
  text f = inl e \/
  (exists c, text f = inr c /\ rewrite c <> c /\
             write_error f = Some (OpenFails e)) ->
  rewrite_file rewrite path w = (inr false, emitted w [Print (error_line path e)]).
Proof.
  intros Hf H. rewrite rewrite_file_run, Hf.
  destruct H as [Ht | (c & Ht & Hc & Hw)]; rewrite Ht; [reflexivity|].
  apply str_eqb_neq in Hc. rewrite Hc, Hw. reflexivity.
Qed.

(** A file whose text changes and whose writing fails after [open] has
    truncated it: the exception is caught and reported in the same way, the
    file counts as not fixed, and it is left empty. *)
Lemma rewrite_file_write_fails rewrite path w f c e :
  files w !! path = Some f -> text f = inr c -> rewrite c <> c ->
  write_error f = Some (WriteFails e) ->
  rewrite_file rewrite path w =
  (inr false,
   World (dirs w) (<[path := File (inr []) (Some (WriteFails e))]> (files w))
         (out w ++ [Print (error_line path e)])).
Proof.
  intros Hf Ht Hc Hw. rewrite rewrite_file_run, Hf, Ht.
  apply str_eqb_neq in Hc. rewrite Hc, Hw. reflexivity.
Qed.

Lemma count_wrote_app a b : count_wrote (a ++ b) = count_wrote a + count_wrote b.
Proof. unfold count_wrote. rewrite List.filter_app, length_app. reflexivity. Qed.

(** The loop of [main]: it reaches the end of the list whatever happens to
    the single files, and its counter is the number of files written. *)
Lemma count_fixed_loop (fix_file : str -> IO bool) :
  (forall path w, exists b fs evs,
      fix_file path w = (inr b, World (dirs w) fs (out w ++ evs)) /\
      count_wrote evs = (if b then 1 else 0)) ->
  forall rust_files n0 w,
  exists fs evs,
    for_each rust_files
      (fun file_name fixed_count =>
         bind (fix_file (path_join src_dir file_name))
              (fun fixed => ret (if fixed : bool then fixed_count + 1
                                 else fixed_count)))
      n0 w
    = (inr (n0 + count_wrote evs), World (dirs w) fs (out w ++ evs)).
Proof.
  intros Hfix rust_files.
  induction rust_files as [|name rest IH]; intros n0 w.
  - exists (files w), []. simpl. unfold ret. rewrite app_nil_r, Nat.add_0_r.
    destruct w; reflexivity.
  - destruct (Hfix (path_join src_dir name) w) as (b & fs & evs & Hrun & Hcount).
    simpl. unfold bind at 1. unfold bind at 1. rewrite Hrun. unfold ret at 1.
    destruct (IH (if b then n0 + 1 else n0) (World (dirs w) fs (out w ++ evs)))
      as (fs' & evs' & Hrest).
    simpl in Hrest. rewrite Hrest.
    exists fs', (evs ++ evs'). rewrite count_wrote_app, Hcount, app_assoc.
    f_equal. f_equal. destruct b; lia.
Qed.

Lemma count_fixed_run rewrite rust_files w :
  exists fs evs,
    count_fixed (rewrite_file rewrite) rust_files w =
    (inr (count_wrote evs), World (dirs w) fs (out w ++ evs)).
Proof.
  destruct (count_fixed_loop (rewrite_file rewrite)
              (rewrite_file_returns rewrite) rust_files 0 w) as (fs & evs & H).
  exists fs, evs. exact H.
Qed.

(** A script whose [main] is the loop followed by the summary line. *)
Lemma summary_main_run rewrite w names :
  dirs w !! src_dir = Some names ->
  exists fs evs,
    count_fixed (rewrite_file rewrite) (rust_files_of names) w =
      (inr (count_wrote evs), World (dirs w) fs (out w ++ evs)) /\
    bind (listdir src_dir)
         (fun names =>
            bind (count_fixed (rewrite_file rewrite) (rust_files_of names))
                 (fun fixed_count => print (count_line fixed_count))) w =
      (inr tt, World (dirs w) fs
                     (out w ++ evs ++ [Print (count_line (count_wrote evs))])).
Proof.
  intros Hdir.
  destruct (count_fixed_run rewrite (rust_files_of names) w) as (fs & evs & H).
  exists fs, evs. split; [exact H|].
  unfold bind at 1. unfold listdir. rewrite Hdir.
  unfold bind. rewrite H. unfold print, emit. simpl.
  rewrite <- app_assoc. reflexivity.
Qed.

Lemma rewrite_file_writes_iff_changed rewrite path w f c :
  files w !! path = Some f -> text f = inr c -> write_error f = None ->
  writes_iff_changed rewrite (rewrite_file rewrite) path c w.
Proof.
  intros Hf Ht Hw. unfold writes_iff_changed.
  rewrite rewrite_file_run, Hf, Ht, Hw.
  destruct (str_eqb (rewrite c) c) eqn:E.
  - apply str_eqb_eq in E. repeat split; try congruence.
    + intros [x Hx]. simpl in Hx. rewrite skipn_all in Hx. contradiction.
  - apply str_eqb_neq in E. repeat split; try congruence.
    intros _. exists (rewrite c). simpl.
    rewrite skipn_app, skipn_all, Nat.sub_diag. simpl. left. reflexivity.
Qed.

(** ** The patterns, read from the text the scripts give to [re.sub] *)

Lemma pattern_chrono_read :
  ReSyntax.read (u "chrono::Some\(") = Some FixChrono.pattern_chrono.
Proof. vm_compute. reflexivity. Qed.

Lemma pattern_nested_read :
  ReSyntax.read (u "Some\(Some\(([^)]+)\)\.to_rfc3339\(\)\)\.to_rfc3339\(\)")
  = Some FixChrono.pattern_nested.
Proof. vm_compute. reflexivity. Qed.

Lemma record_pattern_read :
  ReSyntax.read
    (u "(AnalysisWarning\s*\{[^}]*?)(\s*capsule_id:[^,]+,\s*suggestion:[^,}]+)(\s*\})")
  = Some FixAnalysisWarnings.pattern.
Proof. vm_compute. reflexivity. Qed.

Lemma record_pattern2_read :
  ReSyntax.read
    (u "(AnalysisWarning\s*\{\s*message:[^,]+,\s*level:[^,}]+)(\s*\})")
  = Some FixAnalysisWarnings.pattern2.
Proof. vm_compute. reflexivity. Qed.

Lemma block_pattern_read :
  ReSyntax.read (u "AnalysisWarning\s*\{[^}]*?\}") = Some FixAllWarnings.pattern.
Proof. vm_compute. reflexivity. Qed.

Lemma pattern_string_warnings_read :
  ReSyntax.read (u "(\s*" ++ u ")warnings\.push\(([^)]+\.to_string\(\))\);")
  = Some FixAllWarnings.pattern_string_warnings.
Proof. vm_compute. reflexivity. Qed.

Lemma pattern_format_warnings_read :
  ReSyntax.read (u "(\s*" ++ u ")warnings\.push\(format!\(([^;]+)\)\);")
  = Some FixAllWarnings.pattern_format_warnings.
Proof. vm_compute. reflexivity. Qed.

Lemma pattern_message_read :
  ReSyntax.read (u "\.warnings\.push\(([^)]+)\.message\)")
  = Some FixAllWarnings.pattern_message.
Proof. vm_compute. reflexivity. Qed.

(** ** The patterns of the scripts match no empty text *)

Lemma chrono_never_empty : never_empty FixChrono.pattern_chrono.
Proof. apply consumes_never_empty. vm_compute. reflexivity. Qed.

Lemma nested_never_empty : never_empty FixChrono.pattern_nested.
Proof. apply consumes_never_empty. vm_compute. reflexivity. Qed.

Lemma record_never_empty : never_empty FixAnalysisWarnings.pattern.
Proof. apply consumes_never_empty. vm_compute. reflexivity. Qed.

Lemma simple_record_never_empty : never_empty FixAnalysisWarnings.pattern2.
Proof. apply consumes_never_empty. vm_compute. reflexivity. Qed.

Lemma block_never_empty : never_empty FixAllWarnings.pattern.
Proof. apply consumes_never_empty. vm_compute. reflexivity. Qed.

Lemma string_warning_never_empty :
  never_empty FixAllWarnings.pattern_string_warnings.
Proof. apply consumes_never_empty. vm_compute. reflexivity. Qed.

Lemma format_warning_never_empty :
  never_empty FixAllWarnings.pattern_format_warnings.
Proof. apply consumes_never_empty. vm_compute. reflexivity. Qed.

Lemma message_never_empty : never_empty FixAllWarnings.pattern_message.
Proof. apply consumes_never_empty. vm_compute. reflexivity. Qed.

(** ** What the scan finds *)

Lemma scan_hits r s f :
  In (Hit f) (scan r s) -> exists t, match_here r t = Some f.
Proof.
  remember (length s) as n eqn:Hn. revert s Hn.
  induction n as [n IH] using lt_wf_ind. intros s Hn.
  destruct s as [|c s].
  - rewrite scan_nil. destruct (match_here r []) as [g|] eqn:E; [|contradiction].
    intros [H | []]. injection H as ->. eauto.
  - rewrite scan_cons. destruct (match_here r (c :: s)) as [g|] eqn:E.
    + pose proof (match_here_sound _ _ _ E) as Hs.
      destruct (matched g) as [|x mt] eqn:Em.
      * intros [H | [H | H]]; [injection H as ->; eauto | discriminate |].
        apply (IH (length s)) in H; [exact H | subst n; simpl; lia | reflexivity].
      * intros [H | H]; [injection H as ->; eauto|].
        apply (IH (length (after g))) in H; [exact H | | reflexivity].
        subst n. rewrite Hs, length_app. simpl. lia.
    + intros [H | H]; [discriminate|].
      apply (IH (length s)) in H; [exact H | subst n; simpl; lia | reflexivity].
Qed.

Lemma finditer_hits r s f :
  In f (finditer r s) -> exists t, match_here r t = Some f.
Proof.
  unfold finditer. intros H. apply in_flat_map in H as [p [Hp Hf]].
  destruct p as [c | g]; [contradiction|]. destruct Hf as [<- | []].
  apply (scan_hits r s g Hp).
Qed.

Lemma no_match_starts_spec r pre t :
  no_match_starts r pre t = true ->
  forall a b, pre = a ++ b -> b <> [] -> match_here r (b ++ t) = None.
Proof.
  induction pre as [|c pre IH]; simpl; intros H a b Hab Hb.
  - destruct a; destruct b; try discriminate. congruence.
  - destruct (match_here r (c :: pre ++ t)) eqn:E; [discriminate|].
    destruct a as [|d a]; simpl in Hab.
    + subst b. exact E.
    + injection Hab as _ Hab. apply (IH H a b Hab Hb).
Qed.

Lemma sub_reaches r repl pre t :
  no_match_starts r pre t = true ->
  sub r repl (pre ++ t) = pre ++ sub r repl t.
Proof. intros H. apply sub_skip, no_match_starts_spec, H. Qed.

Lemma no_message_lines (ls : list str) :
  forallb (fun l => negb (contains (u "message:") l)) ls = true ->
  forall l, In l ls -> contains (u "message:") l = false.
Proof.
  intros H l Hl. apply (forallb_In _ _ _ H) in Hl.
  apply negb_true_iff in Hl. exact Hl.
Qed.

Lemma to_string_call_text :
  u ".to_string());" = u ".to_string()" ++ u ");".
Proof. vm_compute. reflexivity. Qed.

(** ** Texts that a pass leaves as they are *)

Lemma no_match_sub r repl c :
  never_empty r -> no_match r c = true -> sub r repl c = c.
Proof.
  intros Hr H. apply sub_no_match; [exact Hr|].
  unfold no_match in H. destruct (search r c); [discriminate | reflexivity].
Qed.

Lemma forallb_finditer_fixed r repl (ok : found -> bool) c :
  never_empty r ->
  (forall s f, match_here r s = Some f -> ok f = true -> repl f = matched f) ->
  forallb ok (finditer r c) = true ->
  sub r repl c = c.
Proof.
  intros Hr Hok Hall. apply sub_fixed; [exact Hr|].
  apply List.Forall_forall. intros f Hf.
  destruct (finditer_hits r c f Hf) as [s Hs].
  apply (Hok s f Hs). apply (forallb_In _ _ _ Hall Hf).
Qed.

Lemma chrono_fixed c :
  no_match FixChrono.pattern_chrono c = true ->
  no_match FixChrono.pattern_nested c = true ->
  FixChrono.fix_text c = c.
Proof.
  intros H1 H2. unfold FixChrono.fix_text.
  rewrite (no_match_sub _ _ _ chrono_never_empty H1).
  apply (no_match_sub _ _ _ nested_never_empty H2).
Qed.

Lemma analysis_fixed c :
  forallb has_category (finditer FixAnalysisWarnings.pattern c) = true ->
  no_match FixAnalysisWarnings.pattern2 c = true ->
  FixAnalysisWarnings.fix_text c = c.
Proof.
  intros H1 H2. unfold FixAnalysisWarnings.fix_text.
  rewrite (forallb_finditer_fixed _ _ has_category c record_never_empty).
  - apply (no_match_sub _ _ _ simple_record_never_empty H2).
  - intros s f Hs Hc. apply (replace_warning_present s);
      [apply match_here_in, Hs | exact Hc].
  - exact H1.
Qed.

Lemma all_warnings_fixed lower c :
  forallb settled_block (finditer FixAllWarnings.pattern c) = true ->
  no_match FixAllWarnings.pattern_string_warnings c = true ->
  no_match FixAllWarnings.pattern_format_warnings c = true ->
  FixAllWarnings.fix_text lower c = c.
Proof.
  intros H1 H2 H3. unfold FixAllWarnings.fix_text.
  rewrite (forallb_finditer_fixed _ _ settled_block c block_never_empty).
  - rewrite (no_match_sub _ _ _ string_warning_never_empty H2).
    apply (no_match_sub _ _ _ format_warning_never_empty H3).
  - intros s f _ Hok. unfold settled_block in Hok.
    apply orb_true_iff in Hok as [Hc | Hm].
    + apply add_category_present, Hc.
    + apply add_category_no_message, no_message_lines, Hm.
  - exact H1.
Qed.

Lemma no_rule_matches_no_match rules c :
  no_rule_matches rules c -> forall r, In r rules -> no_match r c = true.
Proof.
  unfold no_rule_matches. rewrite List.Forall_forall. intros H r Hr.
  unfold no_match. rewrite (H r Hr). reflexivity.
Qed.

Lemma search_none_finditer r c : search r c = None -> finditer r c = [].
Proof. unfold search. destruct (finditer r c); [reflexivity | discriminate]. Qed.

(** ** The runs of [main] *)

Lemma fix_warning_message_returns path w :
  exists fs evs,
    FixAllWarnings.fix_warning_message path w =
    (inr tt, World (dirs w) fs (out w ++ evs)).
Proof.
  unfold FixAllWarnings.fix_warning_message, try_except, bind, read_text,
    write_text, print, emit, ret.
  destruct (files w !! path) as [f|] eqn:Ef.
  - destruct (text f) as [e | c].
    + eexists _, _. reflexivity.
    + destruct (negb (str_eqb _ c)); simpl.
      * rewrite Ef. destruct (write_error f) as [[e | e]|]; simpl.
        -- eexists _, _. reflexivity.
        -- eexists _, _. reflexivity.
        -- rewrite <- app_assoc. eexists _, _. reflexivity.
      * exists (files w), []. rewrite app_nil_r. destruct w; reflexivity.
  - eexists _, _. reflexivity.
Qed.

Lemma second_loop_returns rust_files : forall w,
  exists fs evs,
    for_each rust_files
      (fun file_name (_ : unit) =>
         FixAllWarnings.fix_warning_message (path_join src_dir file_name))
      tt w
    = (inr tt, World (dirs w) fs (out w ++ evs)).
Proof.
  induction rust_files as [|name rest IH]; intros w.
  - exists (files w), []. simpl. unfold ret. rewrite app_nil_r.
    destruct w; reflexivity.
  - destruct (fix_warning_message_returns (path_join src_dir name) w)
      as (fs & evs & Hrun).
    simpl. unfold bind at 1. rewrite Hrun.
    destruct (IH (World (dirs w) fs (out w ++ evs))) as (fs' & evs' & Hrest).
    simpl in Hrest. rewrite Hrest.
    exists fs', (evs ++ evs'). rewrite app_assoc. reflexivity.
Qed.

(** ** The two substitutions of fix_chrono.py, one after the other *)

Lemma scan_keeps r s c : In (Keep c) (scan r s) -> In c s.
Proof.
  remember (length s) as n eqn:Hn. revert s Hn.
  induction n as [n IH] using lt_wf_ind. intros s Hn.
  destruct s as [|d s].
  - rewrite scan_nil. destruct (match_here r []); [|contradiction].
    intros [H | []]. discriminate.
  - rewrite scan_cons. destruct (match_here r (d :: s)) as [g|] eqn:E.
    + pose proof (match_here_sound _ _ _ E) as Hs.
      destruct (matched g) as [|x mt] eqn:Em.
      * intros [H | [H | H]]; [discriminate | injection H as ->; left; reflexivity |].
        right. apply (IH (length s)); [subst n; simpl; lia | reflexivity | exact H].
      * intros [H | H]; [discriminate|].
        apply (IH (length (after g))) in H; [| | reflexivity].
        -- rewrite Hs. apply in_or_app. right. exact H.
        -- subst n. rewrite Hs, length_app. simpl. lia.
    + intros [H | H]; [injection H as ->; left; reflexivity|].
      right. apply (IH (length s)); [subst n; simpl; lia | reflexivity | exact H].
Qed.

(** A character of the result of a substitution comes from the text or from
    a replacement. *)
Lemma sub_chars r repl s d :
  In d (sub r repl s) ->
  In d s \/ exists f, In f (finditer r s) /\ In d (repl f).
Proof.
  unfold sub, finditer. intros H. apply in_flat_map in H as [p [Hp Hd]].
  destruct p as [c | f].
  - destruct Hd as [<- | []]. left. apply (scan_keeps r s c Hp).
  - right. exists f. split; [|exact Hd].
    apply in_flat_map. exists (Hit f). split; [exact Hp | left; reflexivity].
Qed.

Lemma sub_lit_char l v d a b :
  l <> [] -> ~ In d l ->
  sub (Lit l) (fun _ => v) (a ++ d :: b) =
  sub (Lit l) (fun _ => v) a ++ d :: sub (Lit l) (fun _ => v) b.
Proof.
  intros Hl Hd.
  assert (Hne : never_empty (Lit l))
    by (apply consumes_never_empty; destruct l; [congruence | reflexivity]).
  remember (length a) as n eqn:Hn. revert a Hn.
  induction n as [n IH] using lt_wf_ind. intros a Hn.
  destruct a as [|c a].
  - simpl. rewrite (sub_nil _ _ Hne). simpl. apply sub_keep.
    destruct (match_here (Lit l) (d :: b)) as [f|] eqn:E; [|reflexivity].
    apply match_here_lit_inv in E as [Hs _]. exfalso. apply Hd.
    destruct l as [|x l]; [congruence|]. simpl in Hs. injection Hs as -> _.
    left. reflexivity.
  - destruct (match_here (Lit l) ((c :: a) ++ d :: b)) as [f|] eqn:E.
    + pose proof (match_here_lit_inv _ _ _ E) as [Hs Hf].
      assert (Hsplit : exists z, c :: a = l ++ z /\ after f = z ++ d :: b).
      { apply app_eq_app in Hs as [z [[Hpre Ht] | [Hlz Hrest]]].
        - exists z. auto.
        - destruct z as [|e z].
          + exists []. rewrite app_nil_r in *. simpl in *. split; congruence.
          + exfalso. apply Hd. simpl in Hrest. injection Hrest as -> _.
            rewrite Hlz. apply in_or_app. right. left. reflexivity. }
      destruct Hsplit as [z [Hpre Ht]].
      rewrite (sub_hit _ _ _ _ Hne E). rewrite Ht.
      rewrite (IH (length z)); [| subst n; rewrite Hpre, length_app;
                                  destruct l; [congruence | simpl; lia] | reflexivity].
      rewrite Hpre.
      rewrite (sub_hit _ _ _ _ Hne (match_here_lit l z)). simpl.
      rewrite <- !app_assoc. reflexivity.
    + change ((c :: a) ++ d :: b) with (c :: (a ++ d :: b)).
      rewrite (sub_keep _ _ _ _ E).
      rewrite (IH (length a)); [| subst n; simpl; lia | reflexivity].
      rewrite sub_keep; [reflexivity|].
      destruct (match_here (Lit l) (c :: a)) as [f|] eqn:E'; [|reflexivity].
      apply match_here_lit_inv in E' as [Hs _].
      rewrite Hs, <- app_assoc, match_here_lit in E. discriminate.
Qed.

Lemma chrono_sub_no_rparen x :
  ~ In rparen x ->
  ~ In rparen (sub FixChrono.pattern_chrono FixChrono.some_template x).
Proof.
  intros Hx H. apply sub_chars in H as [H | [f [_ H]]]; [contradiction|].
  vm_compute in H. intuition discriminate.
Qed.

Lemma chrono_sub_nonempty x :
  x <> [] -> sub FixChrono.pattern_chrono FixChrono.some_template x <> [].
Proof.
  destruct x as [|c x]; [congruence|]. intros _.
  destruct (match_here FixChrono.pattern_chrono (c :: x)) as [f|] eqn:E.
  - rewrite (sub_hit _ _ _ _ chrono_never_empty E). intros H.
    apply app_eq_nil in H as [H _]. vm_compute in H. discriminate.
  - rewrite (sub_keep _ _ _ _ E). discriminate.
Qed.

Lemma nested_tail_text :
  u ").to_rfc3339()).to_rfc3339()" =
  rparen :: u ".to_rfc3339()).to_rfc3339()".
Proof. vm_compute. reflexivity. Qed.

(** The whole rewriting on a doubly wrapped expression at the head of a
    text: the inner expression goes through the first substitution, the
    wrapping is collapsed by the second. *)
Lemma chrono_fix_text_nested x post :
  x <> [] -> ~ In rparen x ->
  FixChrono.fix_text
    (u "Some(Some(" ++ x ++ u ").to_rfc3339()).to_rfc3339()" ++ post) =
  u "Some(" ++ sub FixChrono.pattern_chrono FixChrono.some_template x ++
  u ".to_rfc3339())" ++ FixChrono.fix_text post.
Proof.
  intros Hne Hx. unfold FixChrono.fix_text.
  assert (H1 : sub FixChrono.pattern_chrono FixChrono.some_template
                 (u "Some(Some(" ++ x ++ u ").to_rfc3339()).to_rfc3339()" ++ post) =
               u "Some(Some(" ++
               sub FixChrono.pattern_chrono FixChrono.some_template x ++
               u ").to_rfc3339()).to_rfc3339()" ++
               sub FixChrono.pattern_chrono FixChrono.some_template post).
  { rewrite sub_reaches by (vm_compute; reflexivity). f_equal.
    rewrite nested_tail_text. cbn [app].
    unfold FixChrono.pattern_chrono, FixChrono.some_template.
    rewrite (sub_lit_char (u "chrono::Some(") (u "Some(") rparen);
      [| vm_compute; discriminate | vm_compute; intuition discriminate].
    rewrite (sub_reaches (Lit (u "chrono::Some(")) _
               (u ".to_rfc3339()).to_rfc3339()") post)
      by (vm_compute; reflexivity).
    reflexivity. }
  rewrite H1.
  rewrite (sub_hit _ _ _ _ nested_never_empty
             (nested_match _ _ (chrono_sub_nonempty x Hne)
                           (chrono_sub_no_rparen x Hx))).
  unfold FixChrono.nested_template, group. cbn [groups nth Nat.sub after].
  rewrite <- !app_assoc. reflexivity.
Qed.

(** * The properties of the specification *)

(** C1: a per-file function of each script writes the file it is given
    exactly when its substitutions, applied in order to the text read, give
    a different text; the file then holds that text. When no pattern of the
    script is found in the text, the substitutions give the text back and
    nothing is written. (The file is one that can be read and written.) *)
Theorem C1_written_iff_changed
    (lower : str -> str) (path : str) (w : world) (f : file) (c : str) :
  files w !! path = Some f -> text f = inr c -> write_error f = None ->
  (writes_iff_changed FixChrono.fix_text FixChrono.fix_chrono_some_in_file
                      path c w /\
   (no_rule_matches [FixChrono.pattern_chrono; FixChrono.pattern_nested] c ->
    FixChrono.fix_text c = c /\
    FixChrono.fix_chrono_some_in_file path w = (inr false, w))) /\
  (writes_iff_changed FixAnalysisWarnings.fix_text
                      FixAnalysisWarnings.fix_analysis_warning_in_file
                      path c w /\
   (no_rule_matches [FixAnalysisWarnings.pattern; FixAnalysisWarnings.pattern2] c ->
    FixAnalysisWarnings.fix_text c = c /\
    FixAnalysisWarnings.fix_analysis_warning_in_file path w = (inr false, w))) /\
  (writes_iff_changed (FixAllWarnings.fix_text lower)
                      (FixAllWarnings.fix_analysis_warnings_comprehensive lower)
                      path c w /\
   (no_rule_matches [FixAllWarnings.pattern;
                     FixAllWarnings.pattern_string_warnings;
                     FixAllWarnings.pattern_format_warnings] c ->
    FixAllWarnings.fix_text lower c = c /\
    FixAllWarnings.fix_analysis_warnings_comprehensive lower path w
    = (inr false, w))).
Proof.
  intros Hf Ht Hw.
  pose proof (fun rewrite =>
                rewrite_file_writes_iff_changed rewrite path w f c Hf Ht Hw)
    as Hframe.
  assert (Hsame : forall rewrite fix_file,
             writes_iff_changed rewrite fix_file path c w ->
             rewrite c = c ->
             rewrite c = c /\ fix_file path w = (inr false, w)).
  { intros rewrite fix_file (_ & Hkeep & _) Heq. split; [exact Heq | auto]. }
  split; [|split].
  - split; [apply Hframe|]. intros Hno.
    apply Hsame; [apply Hframe|].
    pose proof (no_rule_matches_no_match _ _ Hno) as Hr.
    apply chrono_fixed; apply Hr; simpl; auto.
  - split; [apply Hframe|]. intros Hno.
    apply Hsame; [apply Hframe|].
    pose proof (no_rule_matches_no_match _ _ Hno) as Hr.
    apply analysis_fixed; [|apply Hr; simpl; auto].
    inversion Hno as [|? ? Hsearch _]; subst.
    rewrite (search_none_finditer _ _ Hsearch). reflexivity.
  - split; [apply Hframe|]. intros Hno.
    apply Hsame; [apply Hframe|].
    pose proof (no_rule_matches_no_match _ _ Hno) as Hr.
    apply all_warnings_fixed; [| apply Hr; simpl; auto | apply Hr; simpl; auto].
    inversion Hno as [|? ? Hsearch _]; subst.
    rewrite (search_none_finditer _ _ Hsearch). reflexivity.
Qed.

Lemma C1_witness :
  FixChrono.fix_chrono_some_in_file (u "src/a.rs") chrono_world =
    (inr true,
     World (dirs chrono_world)
           (<[u "src/a.rs" := File (inr (u "let t = Some(x);")) None]>
              (files chrono_world))
           [Wrote (u "src/a.rs") (u "let t = Some(x);");
            Print (u "Исправлен файл: src/a.rs")]) /\
  FixAnalysisWarnings.fix_analysis_warning_in_file (u "src/a.rs") chrono_world =
    (inr false, chrono_world) /\
  FixAllWarnings.fix_analysis_warnings_comprehensive lower_basic (u "src/a.rs")
    chrono_world = (inr false, chrono_world).
Proof.
  assert (Hf : files chrono_world !! u "src/a.rs" =
               Some (File (inr (u "let t = chrono::Some(x);")) None))
    by (vm_compute; reflexivity).
  destruct (C1_written_iff_changed lower_basic (u "src/a.rs") chrono_world
              (File (inr (u "let t = chrono::Some(x);")) None)
              (u "let t = chrono::Some(x);") Hf eq_refl eq_refl)
    as (((Hwrite & _) & _) & (_ & Hquiet2) & (_ & Hquiet3)).
  split; [|split].
  - rewrite Hwrite; [vm_compute; reflexivity | vm_compute; discriminate].
  - apply Hquiet2. repeat constructor; vm_compute; reflexivity.
  - apply Hquiet3. repeat constructor; vm_compute; reflexivity.
Defined.




(** C3: a record literal whose matched text already contains [category:] is
    returned unchanged by the category rule, both by
    [add_category_if_missing] of fix_all_warnings.py (on [m]) and by
    [replace_warning] of fix_analysis_warnings.py (on a match [m'] of its
    pattern), so that no second category field is inserted. *)
Theorem C3_category_present_unchanged
    (lower : str -> str) (m : found) (s : str) (m' : found) :
  contains (u "category:") (matched m) = true ->
  match_here FixAnalysisWarnings.pattern s = Some m' ->
  contains (u "category:") (matched m') = true ->
  FixAllWarnings.add_category_if_missing lower m = matched m /\
  FixAnalysisWarnings.replace_warning m' = matched m'.
Proof.
  intros Hc Hm Hc'. split.
  - apply add_category_present, Hc.
  - apply (replace_warning_present s); [apply match_here_in, Hm | exact Hc'].
Qed.

Lemma C3_witness :
  FixAllWarnings.add_category_if_missing lower_basic (whole record_with_category)
    = record_with_category /\
  FixAnalysisWarnings.replace_warning record_with_category_match
    = record_with_category.
Proof.
  apply (C3_category_present_unchanged lower_basic (whole record_with_category)
           record_with_category record_with_category_match);
    vm_compute; reflexivity.
Defined.

(** C4, as the code has it: for a block without [category:], the category is
    the one the ordered keyword groups give for the lower-cased first line
    that contains [message:] (first group wins, "validation" otherwise), and,
    when that line is not the last line of the block, the new field is a
    line of its own put right after it, with the leading blanks of that
    line; every line of the block is kept, in order. *)
Theorem C4_category_line_after_message_line
    (lower : str -> str) (m : found) (before : list str) (line : str)
    (rest : list str) :
  contains (u "category:") (matched m) = false ->
  split_lines (matched m) = before ++ line :: rest ->
  forallb (fun l => negb (contains (u "message:") l)) before = true ->
  contains (u "message:") line = true ->
  rest <> [] ->
  FixAllWarnings.add_category_if_missing lower m =
  join_lines
    (before ++ line ::
       (FixAllWarnings.leading_spaces line ++ u "category: " ++ dq ++
        category_by_keywords lower line ++ dq ++ u ".to_string(),") :: rest).
Proof.
  intros Hc Hs Hb Hl _.
  apply add_category_after_message;
    [exact Hc | exact Hs | apply no_message_lines, Hb | exact Hl].
Qed.

Lemma C4_witness :
  FixAllWarnings.add_category_if_missing lower_basic (whole record_by_lines) =
  join_lines
    [u "AnalysisWarning {";
     u "    message: " ++ dq ++ u "Cycle found" ++ dq ++ u ".to_string(),";
     FixAllWarnings.leading_spaces
       (u "    message: " ++ dq ++ u "Cycle found" ++ dq ++ u ".to_string(),") ++
     u "category: " ++ dq ++
     category_by_keywords lower_basic
       (u "    message: " ++ dq ++ u "Cycle found" ++ dq ++ u ".to_string(),") ++
     dq ++ u ".to_string(),";
     u "    level: Priority::High,";
     u "}"].
Proof.
  apply (C4_category_line_after_message_line lower_basic (whole record_by_lines)
           [u "AnalysisWarning {"]
           (u "    message: " ++ dq ++ u "Cycle found" ++ dq ++ u ".to_string(),")
           [u "    level: Priority::High,"; u "}"]).
  - vm_compute. reflexivity.
  - vm_compute. reflexivity.
  - vm_compute. reflexivity.
  - vm_compute. reflexivity.
  - discriminate.
Defined.

(** C4, as stated, fails: the field is put after the line that contains
    [message:], not after the message field; when that line holds a second
    field, it stands between the message field and the category. *)
Lemma C4_counterexample :
  FixAllWarnings.add_category_if_missing lower_basic
    (whole record_two_fields_on_line) =
  u "AnalysisWarning {" ++ nl ++
  u "    message: " ++ dq ++ u "High complexity" ++ dq ++
  u ".to_string(), level: Priority::High," ++ nl ++
  u "    category: " ++ dq ++ u "complexity" ++ dq ++ u ".to_string()," ++ nl ++
  u "    capsule_id: None," ++ nl ++
  u "}" /\
  followed_by complexity_message_field (u "category:")
    (FixAllWarnings.add_category_if_missing lower_basic
       (whole record_two_fields_on_line)) = false.
Proof. split; vm_compute; reflexivity. Qed.

(** C5, as the code has it: a call [warnings.push(E.to_string());] whose
    expression [E] is not empty and has no closing bracket, and which the
    scan reaches, is replaced by a push of an [AnalysisWarning] record whose
    message is [E.to_string()] and whose other fields are the fixed
    [Priority::Medium], "analysis", [None] and [None]; the blanks [ws] before
    the call are repeated before every line of the record. *)
Theorem C5_to_string_push_becomes_record (pre ws e post : str) :
  forallb is_space ws = true -> e <> [] -> ~ In rparen e ->
  no_match_starts FixAllWarnings.pattern_string_warnings pre
    (ws ++ u "warnings.push(" ++ e ++ u ".to_string());" ++ post) = true ->
  sub FixAllWarnings.pattern_string_warnings FixAllWarnings.convert_string_warning
      (pre ++ ws ++ u "warnings.push(" ++ e ++ u ".to_string());" ++ post) =
  pre ++
  (ws ++ u "warnings.push(AnalysisWarning {" ++ nl ++
   ws ++ u "    message: " ++ (e ++ u ".to_string()") ++ u "," ++ nl ++
   ws ++ u "    level: Priority::Medium," ++ nl ++
   ws ++ u "    category: " ++ dq ++ u "analysis" ++ dq ++ u ".to_string()," ++ nl ++
   ws ++ u "    capsule_id: None," ++ nl ++
   ws ++ u "    suggestion: None," ++ nl ++
   ws ++ u "});") ++
  sub FixAllWarnings.pattern_string_warnings FixAllWarnings.convert_string_warning
      post.
Proof.
  intros Hws Hne He Hpre. rewrite (sub_reaches _ _ _ _ Hpre). f_equal.
  match goal with |- _ = ?r => remember r as record eqn:Hrecord end.
  rewrite to_string_call_text, <- !app_assoc.
  rewrite (sub_hit _ _ _ _ string_warning_never_empty
             (string_warning_match ws e post Hws Hne He)).
  subst record.
  unfold FixAllWarnings.convert_string_warning, FixAllWarnings.warning_record,
    group.
  cbn [groups nth Nat.sub after]. rewrite <- !app_assoc. reflexivity.
Qed.

Lemma C5_witness :
  sub FixAllWarnings.pattern_string_warnings FixAllWarnings.convert_string_warning
      (u "{" ++ u "  " ++ u "warnings.push(" ++ (dq ++ u "bad" ++ dq) ++
       u ".to_string());" ++ u " }") =
  u "{" ++
  (u "  " ++ u "warnings.push(AnalysisWarning {" ++ nl ++
   u "  " ++ u "    message: " ++ ((dq ++ u "bad" ++ dq) ++ u ".to_string()") ++ u "," ++ nl ++
   u "  " ++ u "    level: Priority::Medium," ++ nl ++
   u "  " ++ u "    category: " ++ dq ++ u "analysis" ++ dq ++ u ".to_string()," ++ nl ++
   u "  " ++ u "    capsule_id: None," ++ nl ++
   u "  " ++ u "    suggestion: None," ++ nl ++
   u "  " ++ u "});") ++
  sub FixAllWarnings.pattern_string_warnings FixAllWarnings.convert_string_warning
      (u " }").
Proof.
  apply (C5_to_string_push_becomes_record (u "{") (u "  ") (dq ++ u "bad" ++ dq) (u " }")).
  - vm_compute. reflexivity.
  - vm_compute. discriminate.
  - vm_compute. intuition discriminate.
  - vm_compute. reflexivity.
Defined.

(** C5, as stated, fails: a push of a plain quoted string is left as it is
    (the pattern asks for [.to_string()]), and so is one whose string has a
    closing bracket in it. *)
Lemma C5_counterexample :
  FixAllWarnings.fix_text lower_basic plain_push = plain_push /\
  FixAllWarnings.fix_text lower_basic bracket_push = bracket_push.
Proof. split; vm_compute; reflexivity. Qed.

(** C6, as the code has it: [Some(Some(X).to_rfc3339()).to_rfc3339()] with
    [X] not empty and free of closing brackets, where the scan of the second
    substitution reaches it, is replaced by [Some(X.to_rfc3339())]; the first
    substitution replaces every occurrence of [chrono::Some(] by [Some(],
    whatever stands around it; and the two together, on a text that begins
    with such an expression, collapse it, with the occurrences of
    [chrono::Some(] inside [X] replaced like the others. *)
Theorem C6_nested_some_collapsed (pre x post before after_ : str) :
  x <> [] -> ~ In rparen x ->
  no_match_starts FixChrono.pattern_nested pre
    (u "Some(Some(" ++ x ++ u ").to_rfc3339()).to_rfc3339()" ++ post) = true ->
  sub FixChrono.pattern_nested FixChrono.nested_template
      (pre ++ u "Some(Some(" ++ x ++ u ").to_rfc3339()).to_rfc3339()" ++ post) =
  pre ++ (u "Some(" ++ x ++ u ".to_rfc3339())") ++
  sub FixChrono.pattern_nested FixChrono.nested_template post /\
  sub FixChrono.pattern_chrono FixChrono.some_template
      (before ++ u "chrono::Some(" ++ after_) =
  sub FixChrono.pattern_chrono FixChrono.some_template before ++ u "Some(" ++
  sub FixChrono.pattern_chrono FixChrono.some_template after_ /\
  FixChrono.fix_text
    (u "Some(Some(" ++ x ++ u ").to_rfc3339()).to_rfc3339()" ++ post) =
  u "Some(" ++ sub FixChrono.pattern_chrono FixChrono.some_template x ++
  u ".to_rfc3339())" ++ FixChrono.fix_text post.
Proof.
  intros Hne Hx Hpre. split; [|split].
  - rewrite (sub_reaches _ _ _ _ Hpre). f_equal.
    rewrite (sub_hit _ _ _ _ nested_never_empty (nested_match x post Hne Hx)).
    reflexivity.
  - apply (sub_lit_occurrence (u "chrono::Some(") (u "Some(")).
    + vm_compute. discriminate.
    + apply chrono_border_free.
  - apply chrono_fix_text_nested; assumption.
Qed.

Lemma C6_witness :
  sub FixChrono.pattern_nested FixChrono.nested_template
      (u "let t = " ++ u "Some(Some(" ++ u "created_at" ++
       u ").to_rfc3339()).to_rfc3339()" ++ u ";") =
  u "let t = " ++ (u "Some(" ++ u "created_at" ++ u ".to_rfc3339())") ++
  sub FixChrono.pattern_nested FixChrono.nested_template (u ";") /\
  sub FixChrono.pattern_chrono FixChrono.some_template
      (u "a = " ++ u "chrono::Some(" ++ u "x); b = chrono::Some(y);") =
  sub FixChrono.pattern_chrono FixChrono.some_template (u "a = ") ++ u "Some(" ++
  sub FixChrono.pattern_chrono FixChrono.some_template (u "x); b = chrono::Some(y);") /\
  FixChrono.fix_text
    (u "Some(Some(" ++ u "created_at" ++ u ").to_rfc3339()).to_rfc3339()" ++ u ";") =
  u "Some(" ++ sub FixChrono.pattern_chrono FixChrono.some_template (u "created_at") ++
  u ".to_rfc3339())" ++ FixChrono.fix_text (u ";").
Proof.
  apply (C6_nested_some_collapsed (u "let t = ") (u "created_at") (u ";")
           (u "a = ") (u "x); b = chrono::Some(y);")).
  - vm_compute. discriminate.
  - vm_compute. intuition discriminate.
  - vm_compute. reflexivity.
Defined.

(** C6, as stated, fails: when the inner expression has a closing bracket,
    as a call has, the doubly wrapped expression is left as it is. *)
Lemma C6_counterexample : FixChrono.fix_text nested_now = nested_now.
Proof. vm_compute. reflexivity. Qed.

(** C7, as the code has it: a call [.warnings.push(X.message)], the
    collection reached through a dot, the field named [message], [X] not
    empty and free of closing brackets, where the scan reaches it, is
    replaced by [.warnings.push(X)]. *)
Theorem C7_message_push_unwrapped (pre x post : str) :
  x <> [] -> ~ In rparen x ->
  no_match_starts FixAllWarnings.pattern_message pre
    (u ".warnings.push(" ++ x ++ u ".message)" ++ post) = true ->
  sub FixAllWarnings.pattern_message FixAllWarnings.unwrap_message
      (pre ++ u ".warnings.push(" ++ x ++ u ".message)" ++ post) =
  pre ++ (u ".warnings.push(" ++ x ++ u ")") ++
  sub FixAllWarnings.pattern_message FixAllWarnings.unwrap_message post.
Proof.
  intros Hne Hx Hpre. rewrite (sub_reaches _ _ _ _ Hpre). f_equal.
  rewrite (sub_hit _ _ _ _ message_never_empty (message_match x post Hne Hx)).
  reflexivity.
Qed.

Lemma C7_witness :
  sub FixAllWarnings.pattern_message FixAllWarnings.unwrap_message
      (u "capsule" ++ u ".warnings.push(" ++ u "warning" ++ u ".message)" ++ u ";") =
  u "capsule" ++ (u ".warnings.push(" ++ u "warning" ++ u ")") ++
  sub FixAllWarnings.pattern_message FixAllWarnings.unwrap_message (u ";").
Proof.
  apply (C7_message_push_unwrapped (u "capsule") (u "warning") (u ";")).
  - vm_compute. discriminate.
  - vm_compute. intuition discriminate.
  - vm_compute. reflexivity.
Defined.

(** C7, as stated, fails: pushes of a field access are left as they are when
    the inner expression has a closing bracket, when the collection is not
    reached through a dot, and when the field is not [message]. *)
Lemma C7_counterexample :
  sub FixAllWarnings.pattern_message FixAllWarnings.unwrap_message uncovered_pushes
  = uncovered_pushes.
Proof. vm_compute. reflexivity. Qed.

(** C8, at a file that is not valid UTF-8: both loops of
    fix_all_warnings.py fail to read it, each exception is caught, the run
    ends normally with the file untouched and counted as not fixed. The
    line the per-file function prints names the file; the line the second
    loop prints is "Ошибка: " followed by the text of the exception,
    without the path of the file. *)
Theorem C8_second_loop_error_line_has_no_path :
  FixAllWarnings.main lower_basic undecodable_world =
    (inr tt,
     emitted undecodable_world
       [Print (error_line (u "src/a.rs") invalid_start_byte);
        Print (count_line 0);
        Print (u "Исправляю warnings.push(warning.message)...");
        Print (u "Ошибка: " ++ invalid_start_byte)]) /\
  contains (u "src/a.rs") (error_line (u "src/a.rs") invalid_start_byte) = true /\
  contains (u "src/a.rs") (u "Ошибка: " ++ invalid_start_byte) = false.
Proof. repeat split; vm_compute; reflexivity. Qed.

(** The same at a file the second loop cannot write for lack of space: the
    line has no path either, and the file, truncated by [open], is left
    empty. *)
Lemma full_disk_run_leaves_file_empty :
  FixAllWarnings.main lower_basic full_disk_world =
    (inr tt,
     World (dirs full_disk_world)
           (<[ u "src/a.rs" := File (inr []) (Some (WriteFails no_space)) ]>
              (files full_disk_world))
           [Print (count_line 0);
            Print (u "Исправляю warnings.push(warning.message)...");
            Print (u "Ошибка: " ++ no_space)]).
Proof. vm_compute. reflexivity. Qed.

(** C9, as the code has it: each script prints, right after its loop over
    all the Rust files, a count equal to the number of files that loop
    wrote. In fix_chrono.py and fix_analysis_warnings.py the count is the
    last thing printed and covers every write of the run; in
    fix_all_warnings.py the second loop comes after the count, and what it
    writes is not counted. *)
Theorem C9_count_of_files_written_by_loop
    (lower : str -> str) (w : world) (names : list str) :
  dirs w !! src_dir = Some names ->
  (exists fs evs,
     FixChrono.main w =
     (inr tt, World (dirs w) fs
                    (out w ++ evs ++ [Print (count_line (count_wrote evs))]))) /\
  (exists fs evs,
     FixAnalysisWarnings.main w =
     (inr tt, World (dirs w) fs
                    (out w ++ evs ++ [Print (count_line (count_wrote evs))]))) /\
  (exists fs1 evs fs2 evs2,
     count_fixed (FixAllWarnings.fix_analysis_warnings_comprehensive lower)
                 (rust_files_of names) w =
     (inr (count_wrote evs), World (dirs w) fs1 (out w ++ evs)) /\
     FixAllWarnings.main lower w =
     (inr tt, World (dirs w) fs2
                    (out w ++ evs ++
                     [Print (count_line (count_wrote evs));
                      Print (u "Исправляю warnings.push(warning.message)...")] ++
                     evs2))).
Proof.
  intros Hdir. split; [|split].
  - destruct (summary_main_run FixChrono.fix_text w names Hdir)
      as (fs & evs & _ & Hmain).
    exists fs, evs. exact Hmain.
  - destruct (summary_main_run FixAnalysisWarnings.fix_text w names Hdir)
      as (fs & evs & _ & Hmain).
    exists fs, evs. exact Hmain.
  - destruct (count_fixed_run (FixAllWarnings.fix_text lower)
                (rust_files_of names) w) as (fs1 & evs & Hloop).
    destruct (second_loop_returns (rust_files_of names)
                (World (dirs w) fs1
                   (out w ++ evs ++
                    [Print (count_line (count_wrote evs));
                     Print (u "Исправляю warnings.push(warning.message)...")])))
      as (fs2 & evs2 & Hsecond).
    change (rewrite_file (FixAllWarnings.fix_text lower))
      with (FixAllWarnings.fix_analysis_warnings_comprehensive lower) in Hloop.
    exists fs1, evs, fs2, evs2. split; [exact Hloop|].
    unfold FixAllWarnings.main. unfold bind at 1. unfold listdir. rewrite Hdir.
    unfold bind at 1. rewrite Hloop.
    unfold bind at 1. unfold print at 1, emit. cbn [dirs files out].
    unfold bind at 1. unfold print at 1, emit. cbn [dirs files out].
    cbn [dirs files out] in Hsecond.
    rewrite <- !app_assoc in *. cbn [app] in *.
    unfold count_line in *. exact Hsecond.
Qed.

Lemma C9_witness :
  (exists fs evs,
     FixChrono.main chrono_world =
     (inr tt, World (dirs chrono_world) fs
                    (out chrono_world ++ evs ++
                     [Print (count_line (count_wrote evs))]))) /\
  (exists fs evs,
     FixAnalysisWarnings.main chrono_world =
     (inr tt, World (dirs chrono_world) fs
                    (out chrono_world ++ evs ++
                     [Print (count_line (count_wrote evs))]))) /\
  (exists fs1 evs fs2 evs2,
     count_fixed (FixAllWarnings.fix_analysis_warnings_comprehensive lower_basic)
                 (rust_files_of [u "a.rs"; u "notes.txt"]) chrono_world =
     (inr (count_wrote evs),
      World (dirs chrono_world) fs1 (out chrono_world ++ evs)) /\
     FixAllWarnings.main lower_basic chrono_world =
     (inr tt, World (dirs chrono_world) fs2
                    (out chrono_world ++ evs ++
                     [Print (count_line (count_wrote evs));
                      Print (u "Исправляю warnings.push(warning.message)...")] ++
                     evs2))).
Proof.
  apply (C9_count_of_files_written_by_loop lower_basic chrono_world
           [u "a.rs"; u "notes.txt"]).
  vm_compute. reflexivity.
Defined.

(** C9, as stated, fails for fix_all_warnings.py: the count is printed before
    the second loop, so a file that only the second loop rewrites is written
    while the count printed is 0. *)
Lemma C9_counterexample :
  FixAllWarnings.main lower_basic message_world =
    (inr tt,
     World (dirs message_world)
           (<[u "src/a.rs" := File (inr (u "c.warnings.push(w);")) None]>
              (files message_world))
           [Print (count_line 0);
            Print (u "Исправляю warnings.push(warning.message)...");
            Wrote (u "src/a.rs") (u "c.warnings.push(w);");
            Print (u "Исправлены warning.message в: src/a.rs")]) /\
  count_wrote (out (snd (FixAllWarnings.main lower_basic message_world))) = 1.
Proof. split; vm_compute; reflexivity. Qed.

(** C10: a block matched by rule 1 of fix_all_warnings.py that lacks
    [category:] and has no line containing [message:] is returned unchanged:
    nothing is inserted unless a message line is present. *)
Theorem C10_no_message_line_unchanged (lower : str -> str) (m : found) :
  contains (u "category:") (matched m) = false ->
  forallb (fun l => negb (contains (u "message:") l))
          (split_lines (matched m)) = true ->
  FixAllWarnings.add_category_if_missing lower m = matched m.
Proof.
  intros _ H. apply add_category_no_message, no_message_lines, H.
Qed.

Lemma C10_witness :
  FixAllWarnings.add_category_if_missing lower_basic (whole record_without_message)
  = record_without_message.
Proof.
  apply (C10_no_message_line_unchanged lower_basic (whole record_without_message));
    vm_compute; reflexivity.
Defined.

(** * Further properties of the scripts *)

(** ** What a run does to the files *)

Lemma alter_lookup {A} (g : A -> A) (m : gmap (list N) A) i x :
  m !! i = Some x -> alter g i m = <[i := g x]> m.
Proof.
  intros H. rewrite <- (insert_id m i x H) at 1. apply alter_insert_eq.
Qed.

Lemma written_paths_app a b :
  written_paths (a ++ b) = written_paths a ++ written_paths b.
Proof. unfold written_paths. apply flat_map_app. Qed.

(** One pass over one file: the file store is altered at that path only,
    and nothing else is written. *)
Lemma rewrite_file_effect rewrite path w :
  exists b evs,
    rewrite_file rewrite path w =
    (inr b, World (dirs w) (alter (fixed_file rewrite) path (files w))
                  (out w ++ evs)) /\
    count_wrote evs = (if b then 1 else 0) /\
    (forall p, In p (written_paths evs) -> p = path).
Proof.
  rewrite rewrite_file_run.
  destruct (files w !! path) as [f|] eqn:Ef.
  - rewrite (alter_lookup _ _ _ _ Ef). unfold fixed_file.
    destruct (text f) as [e | c] eqn:Et.
    + exists false, [Print (error_line path e)].
      rewrite (insert_id _ _ _ Ef). repeat split. intros p Hp; cbn [written_paths flat_map app In] in Hp; contradiction.
    + destruct (str_eqb (rewrite c) c).
      * exists false, []. rewrite (insert_id _ _ _ Ef), app_nil_r.
        destruct w; repeat split. intros p Hp; cbn [written_paths flat_map app In] in Hp; contradiction.
      * destruct (write_error f) as [[e | e]|].
        -- exists false, [Print (error_line path e)].
           rewrite (insert_id _ _ _ Ef). repeat split. intros p Hp; cbn [written_paths flat_map app In] in Hp; contradiction.
        -- exists false, [Print (error_line path e)].
           repeat split. intros p Hp; cbn [written_paths flat_map app In] in Hp; contradiction.
        -- eexists true, _. repeat split. intros p Hp; cbn [written_paths flat_map app In] in Hp;
           destruct Hp as [Hp | []]; congruence.
  - rewrite (alter_id' _ _ _ Ef).
    exists false, [Print (error_line path (no_such_file path))].
    repeat split. intros p Hp; cbn [written_paths flat_map app In] in Hp; contradiction.
Qed.

Lemma fix_warning_message_effect path w :
  exists evs,
    FixAllWarnings.fix_warning_message path w =
    (inr tt, World (dirs w) (alter (fixed_file unwrap_text) path (files w))
                   (out w ++ evs)) /\
    (forall p, In p (written_paths evs) -> p = path).
Proof.
  unfold FixAllWarnings.fix_warning_message, try_except, bind, read_text,
    write_text, print, emit, ret.
  fold (unwrap_text).
  destruct (files w !! path) as [f|] eqn:Ef.
  - rewrite (alter_lookup _ _ _ _ Ef). unfold fixed_file.
    destruct (text f) as [e | c] eqn:Et.
    + eexists. rewrite (insert_id _ _ _ Ef). split; [reflexivity|]. intros p Hp; cbn [written_paths flat_map app In] in Hp; contradiction.
    + change (sub FixAllWarnings.pattern_message FixAllWarnings.unwrap_message c)
        with (unwrap_text c).
      destruct (str_eqb (unwrap_text c) c); simpl.
      * exists []. rewrite (insert_id _ _ _ Ef), app_nil_r.
        destruct w; split; [reflexivity|]. intros p Hp; cbn [written_paths flat_map app In] in Hp; contradiction.
      * rewrite Ef. destruct (write_error f) as [[e | e]|]; simpl.
        -- eexists. rewrite (insert_id _ _ _ Ef). split; [reflexivity|].
           intros p Hp; cbn [written_paths flat_map app In] in Hp; contradiction.
        -- eexists. split; [reflexivity|].
           intros p Hp; cbn [written_paths flat_map app In] in Hp; contradiction.
        -- rewrite <- app_assoc. eexists. split; [reflexivity|].
           intros p Hp; cbn [written_paths flat_map app In] in Hp;
           destruct Hp as [Hp | []]; congruence.
  - rewrite (alter_id' _ _ _ Ef). eexists. split; [reflexivity|]. intros p Hp; cbn [written_paths flat_map app In] in Hp; contradiction.
Qed.

(** The first loop of a [main]: the files are passed one after the other. *)
Lemma count_fixed_effect rewrite rust_files : forall n0 w,
  exists evs,
    for_each rust_files
      (fun file_name fixed_count =>
         bind (rewrite_file rewrite (path_join src_dir file_name))
              (fun fixed => ret (if fixed : bool then fixed_count + 1
                                 else fixed_count)))
      n0 w
    = (inr (n0 + count_wrote evs),
       World (dirs w) (fix_files rewrite rust_files (files w)) (out w ++ evs)) /\
    (forall p, In p (written_paths evs) ->
               In p (map (path_join src_dir) rust_files)).
Proof.
  induction rust_files as [|name rest IH]; intros n0 w.
  - exists []. simpl. unfold ret. rewrite app_nil_r, Nat.add_0_r.
    destruct w; split; [reflexivity|]. intros p Hp; cbn [written_paths flat_map app In] in Hp; contradiction.
  - destruct (rewrite_file_effect rewrite (path_join src_dir name) w)
      as (b & evs & Hrun & Hcount & Hpaths).
    cbn [for_each]. unfold bind at 1. unfold bind at 1. rewrite Hrun.
    unfold ret at 1.
    destruct (IH (if b then n0 + 1 else n0)
                 (World (dirs w)
                        (alter (fixed_file rewrite) (path_join src_dir name)
                               (files w))
                        (out w ++ evs)))
      as (evs' & Hrest & Hpaths').
    cbn [dirs files out] in Hrest. rewrite Hrest.
    exists (evs ++ evs'). split.
    + rewrite count_wrote_app, Hcount, app_assoc. cbn [fix_files fold_left].
      f_equal. f_equal. destruct b; lia.
    + intros p Hp. rewrite written_paths_app in Hp.
      apply in_app_or in Hp as [Hp | Hp].
      * left. symmetry. apply Hpaths, Hp.
      * right. apply Hpaths', Hp.
Qed.

(** The second loop of fix_all_warnings.py. *)
Lemma second_loop_effect rust_files : forall w,
  exists evs,
    for_each rust_files
      (fun file_name (_ : unit) =>
         FixAllWarnings.fix_warning_message (path_join src_dir file_name))
      tt w
    = (inr tt,
       World (dirs w) (fix_files unwrap_text rust_files (files w))
             (out w ++ evs)) /\
    (forall p, In p (written_paths evs) ->
               In p (map (path_join src_dir) rust_files)).
Proof.
  induction rust_files as [|name rest IH]; intros w.
  - exists []. simpl. unfold ret. rewrite app_nil_r.
    destruct w; split; [reflexivity|]. intros p Hp; cbn [written_paths flat_map app In] in Hp; contradiction.
  - destruct (fix_warning_message_effect (path_join src_dir name) w)
      as (evs & Hrun & Hpaths).
    cbn [for_each]. unfold bind at 1. rewrite Hrun.
    destruct (IH (World (dirs w)
                        (alter (fixed_file unwrap_text) (path_join src_dir name)
                               (files w))
                        (out w ++ evs)))
      as (evs' & Hrest & Hpaths').
    cbn [dirs files out] in Hrest. rewrite Hrest.
    exists (evs ++ evs'). split.
    + rewrite app_assoc. reflexivity.
    + intros p Hp. rewrite written_paths_app in Hp.
      apply in_app_or in Hp as [Hp | Hp].
      * left. symmetry. apply Hpaths, Hp.
      * right. apply Hpaths', Hp.
Qed.

Lemma path_join_src name :
  path_join src_dir name =
  if startswith [47%N] name then name else 115%N :: 114%N :: 99%N :: 47%N :: name.
Proof.
  unfold path_join.
  replace (u "/") with [47%N] by (vm_compute; reflexivity).
  replace src_dir with [115%N; 114%N; 99%N] by (vm_compute; reflexivity).
  replace (endswith [47%N] [115%N; 114%N; 99%N]) with false
    by (vm_compute; reflexivity).
  reflexivity.
Qed.

(** Two names of a directory have two paths. *)
Lemma path_join_src_inj a b :
  path_join src_dir a = path_join src_dir b -> a = b.
Proof.
  rewrite !path_join_src.
  destruct (startswith [47%N] a) eqn:Ea; destruct (startswith [47%N] b) eqn:Eb;
    intros H.
  - exact H.
  - apply startswith_spec in Ea as [t ->]. discriminate.
  - apply startswith_spec in Eb as [t ->]. discriminate.
  - congruence.
Qed.

Lemma fix_files_cons rewrite name rest fs :
  fix_files rewrite (name :: rest) fs =
  fix_files rewrite rest (alter (fixed_file rewrite) (path_join src_dir name) fs).
Proof. reflexivity. Qed.

Lemma lookup_fix_files_other rewrite rust_files : forall fs p,
  ~ In p (map (path_join src_dir) rust_files) ->
  fix_files rewrite rust_files fs !! p = fs !! p.
Proof.
  induction rust_files as [|name rest IH]; intros fs p Hp; [reflexivity|].
  rewrite fix_files_cons.
  rewrite IH by (intros H; apply Hp; right; exact H).
  apply lookup_alter_ne. intros Heq. apply Hp. left. exact Heq.
Qed.

Lemma lookup_fix_files_one rewrite rust_files : forall fs name,
  List.NoDup rust_files -> In name rust_files ->
  fix_files rewrite rust_files fs !! path_join src_dir name =
  fixed_file rewrite <$> fs !! path_join src_dir name.
Proof.
  induction rust_files as [|a rest IH]; intros fs name Hnd Hin; [contradiction|].
  apply List.NoDup_cons_iff in Hnd as [Ha Hnd].
  rewrite fix_files_cons.
  destruct Hin as [-> | Hin].
  - rewrite lookup_fix_files_other; [apply lookup_alter_eq|].
    intros H. apply in_map_iff in H as [b [Hb Hin]].
    apply path_join_src_inj in Hb. subst b. contradiction.
  - rewrite (IH _ _ Hnd Hin). rewrite lookup_alter_ne; [reflexivity|].
    intros H. apply path_join_src_inj in H. subst a. contradiction.
Qed.

Lemma rust_files_nodup names : List.NoDup names -> List.NoDup (rust_files_of names).
Proof. apply List.NoDup_filter. Qed.

Lemma rust_files_in names name :
  In name (rust_files_of names) <-> In name names /\ endswith (u ".rs") name = true.
Proof. unfold rust_files_of. apply filter_In. Qed.

(** A file that can be read and written comes out of a pass with the
    rewritten text. *)
Lemma fixed_file_text rewrite f c :
  text f = inr c -> write_error f = None ->
  text (fixed_file rewrite f) = inr (rewrite c) /\
  write_error (fixed_file rewrite f) = None.
Proof.
  intros Ht Hw. unfold fixed_file. rewrite Ht.
  destruct (str_eqb (rewrite c) c) eqn:E.
  - apply str_eqb_eq in E. rewrite Ht, Hw, E. auto.
  - rewrite Hw. auto.
Qed.

(** The run of a script whose [main] is the loop and the summary. *)
Lemma summary_main_effect rewrite w names :
  dirs w !! src_dir = Some names ->
  exists evs,
    bind (listdir src_dir)
         (fun names =>
            bind (count_fixed (rewrite_file rewrite) (rust_files_of names))
                 (fun fixed_count => print (count_line fixed_count))) w =
    (inr tt, World (dirs w) (fix_files rewrite (rust_files_of names) (files w))
                   (out w ++ evs ++ [Print (count_line (count_wrote evs))])) /\
    (forall p, In p (written_paths evs) ->
               In p (map (path_join src_dir) (rust_files_of names))).
Proof.
  intros Hdir.
  destruct (count_fixed_effect rewrite (rust_files_of names) 0 w)
    as (evs & Hloop & Hpaths).
  exists evs. split; [|exact Hpaths].
  unfold bind at 1. unfold listdir. rewrite Hdir.
  unfold bind, count_fixed. cbn zeta. rewrite Hloop. unfold print, emit.
  cbn [dirs files out Nat.add]. rewrite <- app_assoc. reflexivity.
Qed.

(** The run of fix_all_warnings.py: the two loops, one after the other. *)
Lemma all_warnings_main_effect lower w names :
  dirs w !! src_dir = Some names ->
  exists evs evs2,
    FixAllWarnings.main lower w =
    (inr tt,
     World (dirs w)
           (fix_files unwrap_text (rust_files_of names)
              (fix_files (FixAllWarnings.fix_text lower) (rust_files_of names)
                 (files w)))
           (out w ++ evs ++
            [Print (count_line (count_wrote evs));
             Print (u "Исправляю warnings.push(warning.message)...")] ++ evs2)) /\
    (forall p, In p (written_paths (evs ++ evs2)) ->
               In p (map (path_join src_dir) (rust_files_of names))).
Proof.
  intros Hdir.
  destruct (count_fixed_effect (FixAllWarnings.fix_text lower)
              (rust_files_of names) 0 w) as (evs & Hloop & Hpaths).
  destruct (second_loop_effect (rust_files_of names)
              (World (dirs w)
                 (fix_files (FixAllWarnings.fix_text lower) (rust_files_of names)
                    (files w))
                 (out w ++ evs ++
                  [Print (count_line (count_wrote evs));
                   Print (u "Исправляю warnings.push(warning.message)...")])))
    as (evs2 & Hsecond & Hpaths2).
  exists evs, evs2. split.
  - unfold FixAllWarnings.main. unfold bind at 1. unfold listdir. rewrite Hdir.
    unfold bind at 1. unfold count_fixed.
    change (FixAllWarnings.fix_analysis_warnings_comprehensive lower)
      with (rewrite_file (FixAllWarnings.fix_text lower)).
    cbn zeta. rewrite Hloop.
    unfold bind at 1. unfold print at 1, emit. cbn [dirs files out Nat.add].
    unfold bind at 1. unfold print at 1, emit. cbn [dirs files out].
    cbn [dirs files out] in Hsecond.
    rewrite <- !app_assoc in *. cbn [app] in *.
    unfold count_line in *. exact Hsecond.
  - intros p Hp. rewrite written_paths_app in Hp.
    apply in_app_or in Hp as [Hp | Hp]; auto.
Qed.

(** X1: fix_chrono.py and fix_analysis_warnings.py rewrite every file they
    can: whatever the other files of the directory are like (unreadable,
    unwritable, unchanged), a [.rs] file of the listing that can be read and
    written holds, after the run, the text the script's substitutions make
    of its text. *)
Theorem main_rewrites_each_file
    (w : world) (names : list str) (name : str) (f : file) (c : str) :
  dirs w !! src_dir = Some names -> List.NoDup names ->
  In name names -> endswith (u ".rs") name = true ->
  files w !! path_join src_dir name = Some f ->
  text f = inr c -> write_error f = None ->
  (exists f',
     files (snd (FixChrono.main w)) !! path_join src_dir name = Some f' /\
     text f' = inr (FixChrono.fix_text c) /\ write_error f' = None) /\
  (exists f',
     files (snd (FixAnalysisWarnings.main w)) !! path_join src_dir name = Some f' /\
     text f' = inr (FixAnalysisWarnings.fix_text c) /\ write_error f' = None).
Proof.
  intros Hdir Hnd Hin Hrs Hf Ht Hw.
  assert (Hone : forall rewrite,
    fix_files rewrite (rust_files_of names) (files w) !! path_join src_dir name
    = Some (fixed_file rewrite f)).
  { intros rewrite. rewrite lookup_fix_files_one, Hf; [reflexivity | |].
    - apply rust_files_nodup, Hnd.
    - apply rust_files_in. auto. }
  split.
  - destruct (summary_main_effect FixChrono.fix_text w names Hdir)
      as (evs & Hmain & _).
    exists (fixed_file FixChrono.fix_text f).
    change (FixChrono.main w) with
      (bind (listdir src_dir)
         (fun names =>
            bind (count_fixed (rewrite_file FixChrono.fix_text) (rust_files_of names))
                 (fun fixed_count => print (count_line fixed_count))) w).
    rewrite Hmain. cbn [snd files]. split; [apply Hone|].
    apply fixed_file_text; assumption.
  - destruct (summary_main_effect FixAnalysisWarnings.fix_text w names Hdir)
      as (evs & Hmain & _).
    exists (fixed_file FixAnalysisWarnings.fix_text f).
    change (FixAnalysisWarnings.main w) with
      (bind (listdir src_dir)
         (fun names =>
            bind (count_fixed (rewrite_file FixAnalysisWarnings.fix_text)
                              (rust_files_of names))
                 (fun fixed_count => print (count_line fixed_count))) w).
    rewrite Hmain. cbn [snd files]. split; [apply Hone|].
    apply fixed_file_text; assumption.
Qed.

Lemma main_rewrites_each_file_witness :
  (exists f',
     files (snd (FixChrono.main mixed_world)) !! path_join src_dir (u "good.rs")
       = Some f' /\
     text f' = inr (FixChrono.fix_text (u "let t = chrono::Some(x);")) /\
     write_error f' = None) /\
  (exists f',
     files (snd (FixAnalysisWarnings.main mixed_world))
       !! path_join src_dir (u "good.rs") = Some f' /\
     text f' = inr (FixAnalysisWarnings.fix_text (u "let t = chrono::Some(x);")) /\
     write_error f' = None).
Proof.
  apply (main_rewrites_each_file mixed_world
           [u "bad.rs"; u "good.rs"; u "notes.txt"] (u "good.rs")
           (File (inr (u "let t = chrono::Some(x);")) None)
           (u "let t = chrono::Some(x);")).
  - vm_compute. reflexivity.
  - repeat constructor; vm_compute; intuition discriminate.
  - vm_compute. auto.
  - vm_compute. reflexivity.
  - vm_compute. reflexivity.
  - reflexivity.
  - reflexivity.
Defined.

(** X2: fix_all_warnings.py passes every file twice, and the passes compose:
    a [.rs] file of the listing that can be read and written holds, after
    the run, the text that the substitution of the second loop makes of the
    text that the three substitutions of the first loop make of its text,
    whatever the other files are like. *)
Theorem all_warnings_main_rewrites_each_file
    (lower : str -> str) (w : world) (names : list str) (name : str)
    (f : file) (c : str) :
  dirs w !! src_dir = Some names -> List.NoDup names ->
  In name names -> endswith (u ".rs") name = true ->
  files w !! path_join src_dir name = Some f ->
  text f = inr c -> write_error f = None ->
  exists f',
    files (snd (FixAllWarnings.main lower w)) !! path_join src_dir name = Some f' /\
    text f' =
      inr (sub FixAllWarnings.pattern_message FixAllWarnings.unwrap_message
               (FixAllWarnings.fix_text lower c)) /\
    write_error f' = None.
Proof.
  intros Hdir Hnd Hin Hrs Hf Ht Hw.
  destruct (all_warnings_main_effect lower w names Hdir) as (evs & evs2 & Hmain & _).
  rewrite Hmain. cbn [snd files].
  assert (Hrf : In name (rust_files_of names)) by (apply rust_files_in; auto).
  pose proof (rust_files_nodup names Hnd) as Hnd'.
  rewrite !lookup_fix_files_one, Hf by assumption. cbn [fmap option_fmap option_map].
  destruct (fixed_file_text (FixAllWarnings.fix_text lower) f c Ht Hw) as [Ht1 Hw1].
  destruct (fixed_file_text unwrap_text _ _ Ht1 Hw1) as [Ht2 Hw2].
  eexists. split; [reflexivity|]. split; [exact Ht2 | exact Hw2].
Qed.

Lemma all_warnings_main_rewrites_each_file_witness :
  exists f',
    files (snd (FixAllWarnings.main lower_basic message_world))
      !! path_join src_dir (u "a.rs") = Some f' /\
    text f' =
      inr (sub FixAllWarnings.pattern_message FixAllWarnings.unwrap_message
               (FixAllWarnings.fix_text lower_basic (u "c.warnings.push(w.message);"))) /\
    write_error f' = None.
Proof.
  apply (all_warnings_main_rewrites_each_file lower_basic message_world
           [u "a.rs"; u "notes.txt"] (u "a.rs")
           (File (inr (u "c.warnings.push(w.message);")) None)
           (u "c.warnings.push(w.message);")).
  - vm_compute. reflexivity.
  - repeat constructor; vm_compute; intuition discriminate.
  - vm_compute. auto.
  - vm_compute. reflexivity.
  - vm_compute. reflexivity.
  - reflexivity.
  - reflexivity.
Defined.

Lemma new_events (o evs : list event) : skipn (length o) (o ++ evs) = evs.
Proof. rewrite skipn_app, skipn_all, Nat.sub_diag. reflexivity. Qed.

Lemma written_paths_summary evs line :
  written_paths (evs ++ [Print line]) = written_paths evs.
Proof. rewrite written_paths_app. apply app_nil_r. Qed.

(** X3: a run touches the [.rs] files of the listing and nothing else: a path
    that is not that of a listed name ending in [.rs] (a file with another
    extension, a file of another directory) has the same file after the run
    of any of the three scripts, and is never written. *)
Theorem main_touches_only_rust_files
    (lower : str -> str) (w : world) (names : list str) (p : str) :
  dirs w !! src_dir = Some names ->
  ~ In p (map (path_join src_dir) (rust_files_of names)) ->
  (files (snd (FixChrono.main w)) !! p = files w !! p /\
   ~ In p (written_paths
             (skipn (length (out w)) (out (snd (FixChrono.main w)))))) /\
  (files (snd (FixAnalysisWarnings.main w)) !! p = files w !! p /\
   ~ In p (written_paths
             (skipn (length (out w)) (out (snd (FixAnalysisWarnings.main w)))))) /\
  (files (snd (FixAllWarnings.main lower w)) !! p = files w !! p /\
   ~ In p (written_paths
             (skipn (length (out w)) (out (snd (FixAllWarnings.main lower w)))))).
Proof.
  intros Hdir Hp. split; [|split].
  - destruct (summary_main_effect FixChrono.fix_text w names Hdir)
      as (evs & Hmain & Hpaths).
    change (FixChrono.main w) with
      (bind (listdir src_dir)
         (fun names =>
            bind (count_fixed (rewrite_file FixChrono.fix_text) (rust_files_of names))
                 (fun fixed_count => print (count_line fixed_count))) w).
    rewrite Hmain. cbn [snd files out]. split.
    + apply lookup_fix_files_other, Hp.
    + rewrite new_events, written_paths_summary. intros H. apply Hp, Hpaths, H.
  - destruct (summary_main_effect FixAnalysisWarnings.fix_text w names Hdir)
      as (evs & Hmain & Hpaths).
    change (FixAnalysisWarnings.main w) with
      (bind (listdir src_dir)
         (fun names =>
            bind (count_fixed (rewrite_file FixAnalysisWarnings.fix_text)
                              (rust_files_of names))
                 (fun fixed_count => print (count_line fixed_count))) w).
    rewrite Hmain. cbn [snd files out]. split.
    + apply lookup_fix_files_other, Hp.
    + rewrite new_events, written_paths_summary. intros H. apply Hp, Hpaths, H.
  - destruct (all_warnings_main_effect lower w names Hdir)
      as (evs & evs2 & Hmain & Hpaths).
    rewrite Hmain. cbn [snd files out]. split.
    + rewrite !lookup_fix_files_other by exact Hp. reflexivity.
    + rewrite new_events. intros H. apply Hp, Hpaths.
      rewrite !written_paths_app in *. cbn [written_paths flat_map app] in H.
      exact H.
Qed.

Lemma main_touches_only_rust_files_witness :
  (files (snd (FixChrono.main mixed_world)) !! u "src/notes.txt"
     = files mixed_world !! u "src/notes.txt" /\
   ~ In (u "src/notes.txt")
        (written_paths
           (skipn (length (out mixed_world))
                  (out (snd (FixChrono.main mixed_world)))))) /\
  (files (snd (FixAnalysisWarnings.main mixed_world)) !! u "src/notes.txt"
     = files mixed_world !! u "src/notes.txt" /\
   ~ In (u "src/notes.txt")
        (written_paths
           (skipn (length (out mixed_world))
                  (out (snd (FixAnalysisWarnings.main mixed_world)))))) /\
  (files (snd (FixAllWarnings.main lower_basic mixed_world)) !! u "src/notes.txt"
     = files mixed_world !! u "src/notes.txt" /\
   ~ In (u "src/notes.txt")
        (written_paths
           (skipn (length (out mixed_world))
                  (out (snd (FixAllWarnings.main lower_basic mixed_world)))))).
Proof.
  apply (main_touches_only_rust_files lower_basic mixed_world
           [u "bad.rs"; u "good.rs"; u "notes.txt"] (u "src/notes.txt")).
  - vm_compute. reflexivity.
  - vm_compute. intuition discriminate.
Defined.

(** X4: [os.listdir] is called outside any [try]: when the directory [src]
    cannot be listed, each script ends with that exception, having printed
    nothing and written nothing. *)
Theorem main_fails_without_directory (lower : str -> str) (w : world) :
  dirs w !! src_dir = None ->
  exists e,
    FixChrono.main w = (inl e, w) /\
    FixAnalysisWarnings.main w = (inl e, w) /\
    FixAllWarnings.main lower w = (inl e, w).
Proof.
  intros Hdir. exists (no_such_file src_dir).
  unfold FixChrono.main, FixAnalysisWarnings.main, FixAllWarnings.main.
  unfold bind at 1 3 5. unfold listdir. rewrite Hdir. auto.
Qed.

Lemma main_fails_without_directory_witness :
  exists e,
    FixChrono.main empty_world = (inl e, empty_world) /\
    FixAnalysisWarnings.main empty_world = (inl e, empty_world) /\
    FixAllWarnings.main lower_basic empty_world = (inl e, empty_world).
Proof.
  apply (main_fails_without_directory lower_basic empty_world).
  vm_compute. reflexivity.
Defined.

(** ** Rule 3 of fix_all_warnings.py *)

Lemma format_warning_match ws a post :
  forallb is_space ws = true -> a <> [] -> ~ In semicolon a ->
  match_here FixAllWarnings.pattern_format_warnings
             (ws ++ u "warnings.push(format!(" ++ a ++ u "));" ++ post) =
  Some (Found [ws; a] (ws ++ u "warnings.push(format!(" ++ a ++ u "));") post).
Proof.
  intros Hws Hne Ha. apply (none_of_forallb semicolon) in Ha.
  unfold FixAllWarnings.pattern_format_warnings, seq.
  assert (Hplus :
    match_here (Cat (Grp (Plus (NoneOf (u ";")))) (Lit (u "));")))
               (a ++ u "));" ++ post) =
    Some (Found [a] (a ++ u "));") post)).
  { rewrite match_here_cat. cbn [alts].
    destruct (alts_plus_app (NoneOf (u ";")) a (u "));" ++ post) Hne Ha)
      as [rest Hrest].
    cbn [alts] in Hrest. rewrite Hrest. rewrite List.map_app, first_cat_app.
    assert (E : first_cat (Lit (u "));"))
                  (map (fun f => Found (matched f :: groups f) (matched f) (after f))
                     (map (fun mt : str * str => Found [] (a ++ fst mt) (snd mt))
                        (rev (runs (NoneOf (u ";")) (u "));" ++ post))))) =
                Some (cat_found (grp_found (Found [] (a ++ []) (u "));" ++ post)))
                                (Found [] (u "));") post)))
      by (vm_compute; reflexivity).
    rewrite E. unfold cat_found, grp_found. simpl. rewrite app_nil_r. reflexivity. }
  erewrite match_here_cat_head.
  2:{ rewrite match_here_grp, (match_here_star Space ws _ Hws); [reflexivity|].
      vm_compute. reflexivity. }
  2:{ cbn [after grp_found]. eapply match_here_cat_head; [apply match_here_lit|].
      cbn [after]. exact Hplus. }
  unfold cat_found, grp_found. simpl. reflexivity.
Qed.

(** X5: rule 3 of fix_all_warnings.py: a call
    [warnings.push(format!(ARGS));] whose arguments are not empty and have no
    semicolon, and which the scan reaches, is replaced, with the blanks
    before it, by a push of an [AnalysisWarning] record whose message is
    [format!(ARGS)], the arguments kept as they are, and whose other fields
    are the fixed ones of rule 2. *)
Theorem format_push_becomes_record (pre ws a post : str) :
  forallb is_space ws = true -> a <> [] -> ~ In semicolon a ->
  no_match_starts FixAllWarnings.pattern_format_warnings pre
    (ws ++ u "warnings.push(format!(" ++ a ++ u "));" ++ post) = true ->
  sub FixAllWarnings.pattern_format_warnings FixAllWarnings.convert_format_warning
      (pre ++ ws ++ u "warnings.push(format!(" ++ a ++ u "));" ++ post) =
  pre ++
  (ws ++ u "warnings.push(AnalysisWarning {" ++ nl ++
   ws ++ u "    message: " ++ (u "format!(" ++ a ++ u ")") ++ u "," ++ nl ++
   ws ++ u "    level: Priority::Medium," ++ nl ++
   ws ++ u "    category: " ++ dq ++ u "analysis" ++ dq ++ u ".to_string()," ++ nl ++
   ws ++ u "    capsule_id: None," ++ nl ++
   ws ++ u "    suggestion: None," ++ nl ++
   ws ++ u "});") ++
  sub FixAllWarnings.pattern_format_warnings FixAllWarnings.convert_format_warning
      post.
Proof.
  intros Hws Hne Ha Hpre. rewrite (sub_reaches _ _ _ _ Hpre). f_equal.
  match goal with |- _ = ?r => remember r as record eqn:Hrecord end.
  rewrite (sub_hit _ _ _ _ format_warning_never_empty
             (format_warning_match ws a post Hws Hne Ha)).
  subst record.
  unfold FixAllWarnings.convert_format_warning, FixAllWarnings.warning_record,
    group.
  cbn [groups nth Nat.sub after]. rewrite <- !app_assoc. reflexivity.
Qed.

Lemma format_push_becomes_record_witness :
  sub FixAllWarnings.pattern_format_warnings FixAllWarnings.convert_format_warning
      (u "{" ++ (nl ++ u "  ") ++ u "warnings.push(format!(" ++
       (dq ++ u "{} cycles" ++ dq ++ u ", n") ++ u "));" ++ u " }") =
  u "{" ++
  ((nl ++ u "  ") ++ u "warnings.push(AnalysisWarning {" ++ nl ++
   (nl ++ u "  ") ++ u "    message: " ++
     (u "format!(" ++ (dq ++ u "{} cycles" ++ dq ++ u ", n") ++ u ")") ++ u "," ++ nl ++
   (nl ++ u "  ") ++ u "    level: Priority::Medium," ++ nl ++
   (nl ++ u "  ") ++ u "    category: " ++ dq ++ u "analysis" ++ dq ++
     u ".to_string()," ++ nl ++
   (nl ++ u "  ") ++ u "    capsule_id: None," ++ nl ++
   (nl ++ u "  ") ++ u "    suggestion: None," ++ nl ++
   (nl ++ u "  ") ++ u "});") ++
  sub FixAllWarnings.pattern_format_warnings FixAllWarnings.convert_format_warning
      (u " }").
Proof.
  apply (format_push_becomes_record (u "{") (nl ++ u "  ")
           (dq ++ u "{} cycles" ++ dq ++ u ", n") (u " }")).
  - vm_compute. reflexivity.
  - vm_compute. discriminate.
  - vm_compute. intuition discriminate.
  - vm_compute. reflexivity.
Defined.

(** ** The second rule of fix_analysis_warnings.py *)

Lemma none_of_set_forallb cs (x : str) :
  (forall c, In c cs -> ~ In c x) -> forallb (cmem (NoneOf cs)) x = true.
Proof.
  intros H. apply forallb_forall. intros d Hd. simpl.
  apply negb_true_iff. destruct (existsb (char_eqb d) cs) eqn:E; [|reflexivity].
  apply existsb_exists in E as [c [Hc Hdc]]. apply char_eqb_eq in Hdc. subst d.
  exfalso. apply (H c Hc Hd).
Qed.

Lemma match_here_cat_step r1 r2 s g1 m1 t1 g2 m2 t2 :
  match_here r1 s = Some (Found g1 m1 t1) ->
  match_here r2 t1 = Some (Found g2 m2 t2) ->
  match_here (Cat r1 r2) s = Some (Found (g1 ++ g2) (m1 ++ m2) t2).
Proof. intros H1 H2. apply (match_here_cat_head _ _ _ _ _ H1 H2). Qed.

Lemma simple_record_match ws1 ws2 m ws3 l post :
  forallb is_space ws1 = true -> forallb is_space ws2 = true ->
  forallb is_space ws3 = true ->
  m <> [] -> ~ In comma m ->
  l <> [] -> ~ In comma l -> ~ In rbrace l ->
  match_here FixAnalysisWarnings.pattern2
    (u "AnalysisWarning" ++ ws1 ++ u "{" ++ ws2 ++ u "message:" ++ m ++ u "," ++
     ws3 ++ u "level:" ++ l ++ u "}" ++ post) =
  Some (Found
          [u "AnalysisWarning" ++ ws1 ++ u "{" ++ ws2 ++ u "message:" ++ m ++
           u "," ++ ws3 ++ u "level:" ++ l;
           u "}"]
          ((u "AnalysisWarning" ++ ws1 ++ u "{" ++ ws2 ++ u "message:" ++ m ++
            u "," ++ ws3 ++ u "level:" ++ l) ++ u "}")
          post).
Proof.
  intros H1 H2 H3 Hm Hmc Hl Hlc Hlb.
  assert (Hmk : forallb (cmem (NoneOf (u ","))) m = true)
    by (apply (none_of_forallb comma), Hmc).
  assert (Hlk : forallb (cmem (NoneOf (u ",}"))) l = true).
  { apply none_of_set_forallb. intros c Hc. vm_compute in Hc.
    destruct Hc as [<- | [<- | []]]; assumption. }
  unfold FixAnalysisWarnings.pattern2, seq.
  assert (Hlevel :
    match_here (Cat (Lit (u "level:")) (Plus (NoneOf (u ",}"))))
               (u "level:" ++ l ++ u "}" ++ post) =
    Some (Found [] (u "level:" ++ l) (u "}" ++ post))).
  { eapply (match_here_cat_step _ _ _ [] _ _ []); [apply match_here_lit|].
    apply (match_here_plus _ l _ Hl Hlk). vm_compute. reflexivity. }
  assert (Hmessage :
    match_here
      (Cat (Lit (u "message:"))
         (Cat (Plus (NoneOf (u ",")))
            (Cat (Lit (u ","))
               (Cat (Star Space)
                  (Cat (Lit (u "level:")) (Plus (NoneOf (u ",}"))))))))
      (u "message:" ++ m ++ u "," ++ ws3 ++ u "level:" ++ l ++ u "}" ++ post) =
    Some (Found [] (u "message:" ++ m ++ u "," ++ ws3 ++ u "level:" ++ l)
                (u "}" ++ post))).
  { eapply (match_here_cat_step _ _ _ [] _ _ []); [apply match_here_lit|].
    eapply (match_here_cat_step _ _ _ [] m _ []).
    { apply (match_here_plus _ m _ Hm Hmk). vm_compute. reflexivity. }
    eapply (match_here_cat_step _ _ _ [] _ _ []); [apply match_here_lit|].
    eapply (match_here_cat_step _ _ _ [] ws3 _ []).
    { apply (match_here_star Space ws3 _ H3). vm_compute. reflexivity. }
    exact Hlevel. }
  assert (Hgroup1 :
    match_here
      (Cat (Lit (u "AnalysisWarning"))
         (Cat (Star Space)
            (Cat (Lit (u "{"))
               (Cat (Star Space)
                  (Cat (Lit (u "message:"))
                     (Cat (Plus (NoneOf (u ",")))
                        (Cat (Lit (u ","))
                           (Cat (Star Space)
                              (Cat (Lit (u "level:"))
                                 (Plus (NoneOf (u ",}"))))))))))))
      (u "AnalysisWarning" ++ ws1 ++ u "{" ++ ws2 ++ u "message:" ++ m ++ u "," ++
       ws3 ++ u "level:" ++ l ++ u "}" ++ post) =
    Some (Found [] (u "AnalysisWarning" ++ ws1 ++ u "{" ++ ws2 ++ u "message:" ++
                    m ++ u "," ++ ws3 ++ u "level:" ++ l)
                (u "}" ++ post))).
  { eapply (match_here_cat_step _ _ _ [] _ _ []); [apply match_here_lit|].
    eapply (match_here_cat_step _ _ _ [] ws1 _ []).
    { apply (match_here_star Space ws1 _ H1). vm_compute. reflexivity. }
    eapply (match_here_cat_step _ _ _ [] _ _ []); [apply match_here_lit|].
    eapply (match_here_cat_step _ _ _ [] ws2 _ []).
    { apply (match_here_star Space ws2 _ H2). vm_compute. reflexivity. }
    exact Hmessage. }
  assert (Hgroup2 :
    match_here (Grp (Cat (Star Space) (Lit (u "}")))) (u "}" ++ post) =
    Some (Found [u "}"] (u "}") post)).
  { rewrite match_here_grp.
    assert (Hbrace :
      match_here (Cat (Star Space) (Lit (u "}"))) (u "}" ++ post) =
      Some (Found [] (u "}") post)).
    { eapply (match_here_cat_step _ _ _ [] [] _ []); [|apply match_here_lit].
      apply (match_here_star Space [] (u "}" ++ post) eq_refl).
      vm_compute. reflexivity. }
    rewrite Hbrace. reflexivity. }
  rewrite (match_here_cat_step _ _ _ _ _ _ _ _ _
             ltac:(rewrite match_here_grp, Hgroup1; reflexivity) Hgroup2).
  reflexivity.
Qed.

(** X6: the second substitution of fix_analysis_warnings.py: a record
    literal with a message and a level only (the message free of commas, the
    level free of commas and closing braces), which the scan reaches, gets
    the three fields [category: "validation".to_string()], [capsule_id: None]
    and [suggestion: None] put between the level and the closing brace;
    the literal up to there and the text around it are kept. *)
Theorem simple_record_gets_three_fields (pre ws1 ws2 m ws3 l post : str) :
  forallb is_space ws1 = true -> forallb is_space ws2 = true ->
  forallb is_space ws3 = true ->
  m <> [] -> ~ In comma m ->
  l <> [] -> ~ In comma l -> ~ In rbrace l ->
  no_match_starts FixAnalysisWarnings.pattern2 pre
    (u "AnalysisWarning" ++ ws1 ++ u "{" ++ ws2 ++ u "message:" ++ m ++ u "," ++
     ws3 ++ u "level:" ++ l ++ u "}" ++ post) = true ->
  sub FixAnalysisWarnings.pattern2 FixAnalysisWarnings.replace_simple_warning
      (pre ++ u "AnalysisWarning" ++ ws1 ++ u "{" ++ ws2 ++ u "message:" ++ m ++
       u "," ++ ws3 ++ u "level:" ++ l ++ u "}" ++ post) =
  pre ++
  ((u "AnalysisWarning" ++ ws1 ++ u "{" ++ ws2 ++ u "message:" ++ m ++ u "," ++
    ws3 ++ u "level:" ++ l) ++
   u "," ++ nl ++
   u "                category: " ++ dq ++ u "validation" ++ dq ++
   u ".to_string()," ++ nl ++
   u "                capsule_id: None," ++ nl ++
   u "                suggestion: None" ++
   u "}") ++
  sub FixAnalysisWarnings.pattern2 FixAnalysisWarnings.replace_simple_warning post.
Proof.
  intros H1 H2 H3 Hm Hmc Hl Hlc Hlb Hpre.
  rewrite (sub_reaches _ _ _ _ Hpre). f_equal.
  rewrite (sub_hit _ _ _ _ simple_record_never_empty
             (simple_record_match ws1 ws2 m ws3 l post H1 H2 H3 Hm Hmc Hl Hlc Hlb)).
  unfold FixAnalysisWarnings.replace_simple_warning,
    FixAnalysisWarnings.category_line, group.
  cbn [groups nth Nat.sub after]. rewrite <- !app_assoc. reflexivity.
Qed.

Lemma simple_record_gets_three_fields_witness :
  sub FixAnalysisWarnings.pattern2 FixAnalysisWarnings.replace_simple_warning
      (u "x = " ++ u "AnalysisWarning" ++ u " " ++ u "{" ++ u " " ++ u "message:" ++
       u " m" ++ u "," ++ u " " ++ u "level:" ++ u " l " ++ u "}" ++ u ";") =
  u "x = " ++
  ((u "AnalysisWarning" ++ u " " ++ u "{" ++ u " " ++ u "message:" ++ u " m" ++
    u "," ++ u " " ++ u "level:" ++ u " l ") ++
   u "," ++ nl ++
   u "                category: " ++ dq ++ u "validation" ++ dq ++
   u ".to_string()," ++ nl ++
   u "                capsule_id: None," ++ nl ++
   u "                suggestion: None" ++
   u "}") ++
  sub FixAnalysisWarnings.pattern2 FixAnalysisWarnings.replace_simple_warning
      (u ";").
Proof.
  apply (simple_record_gets_three_fields (u "x = ") (u " ") (u " ") (u " m")
           (u " ") (u " l ") (u ";")).
  - vm_compute. reflexivity.
  - vm_compute. reflexivity.
  - vm_compute. reflexivity.
  - vm_compute. discriminate.
  - vm_compute. intuition discriminate.
  - vm_compute. discriminate.
  - vm_compute. intuition discriminate.
  - vm_compute. intuition discriminate.
  - vm_compute. reflexivity.
Defined.

(** ** The first rule of fix_analysis_warnings.py, when it inserts *)

Lemma contains_app_left p a b : contains p a = true -> contains p (a ++ b) = true.
Proof.
  rewrite !contains_spec. intros [x [y ->]]. exists x, (y ++ b).
  rewrite <- !app_assoc. reflexivity.
Qed.

Lemma contains_app_right p a b : contains p b = true -> contains p (a ++ b) = true.
Proof.
  rewrite !contains_spec. intros [x [y ->]]. exists (a ++ x), y.
  rewrite <- !app_assoc. reflexivity.
Qed.

Lemma contains_false_app p a b :
  contains p (a ++ b) = false -> contains p a = false /\ contains p b = false.
Proof.
  intros H. split.
  - destruct (contains p a) eqn:E; [|reflexivity].
    rewrite (contains_app_left _ _ b E) in H. discriminate.
  - destruct (contains p b) eqn:E; [|reflexivity].
    rewrite (contains_app_right _ a _ E) in H. discriminate.
Qed.

Lemma endswith_spec p s : endswith p s = true <-> exists t, s = t ++ p.
Proof.
  unfold endswith. rewrite startswith_spec. split.
  - intros [t Ht]. exists (rev t).
    rewrite <- (rev_involutive s), Ht, rev_app_distr, rev_involutive. reflexivity.
  - intros [t ->]. exists (rev t). apply rev_app_distr.
Qed.

(** X7: [replace_warning] on a match without [category:]: the match is its
    three groups in a row, the second opening with blanks and [capsule_id:],
    the third made of blanks and the closing brace; the result is the match
    with the text [,] newline [category: "validation".to_string(),] put in
    between group 1 and group 2, that is after the first group and before
    the blanks that precede [capsule_id:], and nothing else changed. As
    that text opens with a comma, a first group that ends with the comma of
    the field before [capsule_id] gives two commas in a row. *)
Theorem replace_warning_inserts_before_capsule_id (s : str) (m : found) :
  match_here FixAnalysisWarnings.pattern s = Some m ->
  contains (u "category:") (matched m) = false ->
  matched m = group m 1 ++ group m 2 ++ group m 3 /\
  (exists ws2 body2,
     forallb is_space ws2 = true /\
     group m 2 = ws2 ++ u "capsule_id:" ++ body2) /\
  (exists ws3, forallb is_space ws3 = true /\ group m 3 = ws3 ++ u "}") /\
  FixAnalysisWarnings.replace_warning m =
    group m 1 ++
    (u "," ++ nl ++ u "                category: " ++ dq ++ u "validation" ++
     dq ++ u ".to_string(),") ++
    group m 2 ++ group m 3 /\
  (endswith (u ",") (group m 1) = true ->
   contains (u ",,") (FixAnalysisWarnings.replace_warning m) = true).
Proof.
  intros Hm Hc.
  destruct (record_match_shape s m (match_here_in _ _ _ Hm))
    as (g1 & ws2 & body2 & ws3 & Hg & Hmt & H2 & H3).
  assert (Hg1 : group m 1 = g1) by (unfold group; rewrite Hg; reflexivity).
  assert (Hg2 : group m 2 = ws2 ++ u "capsule_id:" ++ body2)
    by (unfold group; rewrite Hg; reflexivity).
  assert (Hg3 : group m 3 = ws3 ++ u "}")
    by (unfold group; rewrite Hg; reflexivity).
  assert (Hr : FixAnalysisWarnings.replace_warning m =
               group m 1 ++
               (u "," ++ nl ++ u "                category: " ++ dq ++
                u "validation" ++ dq ++ u ".to_string(),") ++
               group m 2 ++ group m 3).
  { rewrite Hmt in Hc. apply contains_false_app in Hc as [Hc1 Hc23].
    apply contains_false_app in Hc23 as [Hc2 _].
    unfold FixAnalysisWarnings.replace_warning.
    rewrite Hg1, Hg2, Hg3, Hc1, Hc2. reflexivity. }
  split; [rewrite Hg1, Hg2, Hg3; exact Hmt|].
  split; [exists ws2, body2; split; assumption|].
  split; [exists ws3; split; assumption|].
  split; [exact Hr|].
  intros He. apply endswith_spec in He as [t Ht]. rewrite Hr, Ht.
  apply contains_spec. exists t. eexists.
  replace (u ",,") with (u "," ++ u ",") by (vm_compute; reflexivity).
  rewrite <- !app_assoc. reflexivity.
Qed.

Lemma replace_warning_inserts_before_capsule_id_witness :
  matched four_field_record_match =
    group four_field_record_match 1 ++ group four_field_record_match 2 ++
    group four_field_record_match 3 /\
  (exists ws2 body2,
     forallb is_space ws2 = true /\
     group four_field_record_match 2 = ws2 ++ u "capsule_id:" ++ body2) /\
  (exists ws3,
     forallb is_space ws3 = true /\
     group four_field_record_match 3 = ws3 ++ u "}") /\
  FixAnalysisWarnings.replace_warning four_field_record_match =
    group four_field_record_match 1 ++
    (u "," ++ nl ++ u "                category: " ++ dq ++ u "validation" ++
     dq ++ u ".to_string(),") ++
    group four_field_record_match 2 ++ group four_field_record_match 3 /\
  (endswith (u ",") (group four_field_record_match 1) = true ->
   contains (u ",,") (FixAnalysisWarnings.replace_warning four_field_record_match)
   = true).
Proof.
  apply (replace_warning_inserts_before_capsule_id four_field_record).
  - vm_compute. reflexivity.
  - vm_compute. reflexivity.
Defined.

Lemma four_field_record_two_commas :
  FixAnalysisWarnings.replace_warning four_field_record_match =
  u "AnalysisWarning { message: m, level: l,," ++ nl ++
  u "                category: " ++ dq ++ u "validation" ++ dq ++
  u ".to_string(), capsule_id: None, suggestion: None }".
Proof. vm_compute. reflexivity. Qed.

(** ** Rule 1 of fix_all_warnings.py, once more *)

Lemma first_message_line (ls : list str) :
  forallb (fun l => negb (contains (u "message:") l)) ls = true \/
  exists before line rest,
    ls = before ++ line :: rest /\
    forallb (fun l => negb (contains (u "message:") l)) before = true /\
    contains (u "message:") line = true.
Proof.
  induction ls as [|l ls IH]; [left; reflexivity|].
  destruct (contains (u "message:") l) eqn:E.
  - right. exists [], l, ls. auto.
  - destruct IH as [IH | (before & line & rest & -> & Hb & Hl)].
    + left. simpl. rewrite E, IH. reflexivity.
    + right. exists (l :: before), line, rest. simpl. rewrite E, Hb. auto.
Qed.

Lemma contains_join_lines p l (ls : list str) :
  In l ls -> contains p l = true -> contains p (join_lines ls) = true.
Proof.
  induction ls as [|x ls IH]; [contradiction|].
  intros Hin Hp. destruct ls as [|y ls].
  - destruct Hin as [-> | []]. exact Hp.
  - change (join_lines (x :: y :: ls)) with (x ++ newline :: join_lines (y :: ls)).
    destruct Hin as [-> | Hin].
    + apply contains_app_left, Hp.
    + apply contains_app_right.
      change (newline :: join_lines (y :: ls))
        with ([newline] ++ join_lines (y :: ls)).
      apply contains_app_right, IH; assumption.
Qed.

Lemma category_field_has_category indent category rest :
  contains (u "category:")
    (indent ++ u "category: " ++ dq ++ category ++ dq ++ rest) = true.
Proof.
  apply contains_spec. exists indent. eexists.
  replace (u "category: ") with (u "category:" ++ [space])
    by (vm_compute; reflexivity).
  rewrite <- !app_assoc. reflexivity.
Qed.

(** X8: [add_category_if_missing] is idempotent: handed its own result as
    the text of a match, it returns it unchanged, whatever the block was,
    since the inserted line itself contains [category:]. *)
Theorem add_category_if_missing_idempotent (lower : str -> str) (m : found) :
  FixAllWarnings.add_category_if_missing lower
    (whole (FixAllWarnings.add_category_if_missing lower m)) =
  FixAllWarnings.add_category_if_missing lower m.
Proof.
  destruct (contains (u "category:") (matched m)) eqn:Hc.
  - rewrite (add_category_present lower m Hc).
    apply (add_category_present lower (whole (matched m))). exact Hc.
  - destruct (first_message_line (split_lines (matched m)))
      as [Hno | (before & line & rest & Hs & Hb & Hl)].
    + rewrite (add_category_no_message lower m (no_message_lines _ Hno)).
      apply (add_category_no_message lower (whole (matched m))).
      exact (no_message_lines _ Hno).
    + rewrite (add_category_after_message lower m before line rest Hc Hs
                 (no_message_lines _ Hb) Hl).
      apply (add_category_present lower (whole _)). cbn [whole matched].
      eapply contains_join_lines;
        [| apply (category_field_has_category
                    (FixAllWarnings.leading_spaces line)
                    (category_by_keywords lower line) (u ".to_string(),"))].
      apply in_or_app. right. right. left. reflexivity.
Qed.

(** ** The block of rule 1 *)

Lemma match_here_lit_fails l s :
  startswith l s = false -> match_here (Lit l) s = None.
Proof.
  intros H. unfold match_here. simpl.
  destruct (lit_rest l s) as [t|] eqn:E; [|reflexivity].
  apply lit_rest_spec in E. subst s.
  assert (startswith l (l ++ t) = true) by (apply startswith_spec; eauto).
  congruence.
Qed.

Lemma char_eqb_sym_false a b : char_eqb a b = false -> char_eqb b a = false.
Proof. rewrite !char_eqb_neq. auto. Qed.

Lemma lazy_until_char c : forall body p post,
  ~ In c body ->
  first_cat (Lit [c])
    (map of_run
       (map (fun mt : str * str => (p ++ fst mt, snd mt))
            (runs (NoneOf [c]) (body ++ c :: post)))) =
  Some (Found [] ((p ++ body) ++ [c]) post).
Proof.
  induction body as [|x body IH]; intros p post Hc.
  - cbn [app runs]. cbn [cmem existsb]. rewrite char_eqb_refl. cbn [orb negb].
    cbn [map of_run fst snd first_cat after].
    change (c :: post) with ([c] ++ post). rewrite match_here_lit.
    unfold cat_found. cbn [groups matched after app]. reflexivity.
  - assert (Hx : char_eqb x c = false).
    { apply char_eqb_neq. intros ->. apply Hc. left. reflexivity. }
    cbn [app runs]. cbn [cmem existsb]. rewrite Hx. cbn [orb negb].
    cbn [map of_run fst snd first_cat after].
    rewrite match_here_lit_fails.
    + specialize (IH (p ++ [x]) post (fun H => Hc (or_intror H))).
      replace ((p ++ x :: body) ++ [c]) with (((p ++ [x]) ++ body) ++ [c])
        by (rewrite <- (app_assoc p [x] body); reflexivity).
      rewrite <- IH. f_equal. rewrite !List.map_map. apply map_ext.
      intros [a b]. cbn [fst snd of_run]. rewrite <- app_assoc. reflexivity.
    + cbn [startswith]. rewrite char_eqb_sym_false by exact Hx. reflexivity.
Qed.

Lemma match_here_lazy_until c body post :
  ~ In c body ->
  match_here (Cat (StarLazy (NoneOf [c])) (Lit [c])) (body ++ c :: post) =
  Some (Found [] (body ++ [c]) post).
Proof.
  intros Hc. rewrite match_here_cat. cbn [alts].
  pose proof (lazy_until_char c body [] post Hc) as H.
  cbn [app] in H. rewrite <- H. f_equal.
  rewrite List.map_map. apply map_ext. intros [a b]. reflexivity.
Qed.

Lemma block_match ws body post :
  forallb is_space ws = true -> ~ In rbrace body ->
  match_here FixAllWarnings.pattern
    (u "AnalysisWarning" ++ ws ++ u "{" ++ body ++ u "}" ++ post) =
  Some (Found [] (u "AnalysisWarning" ++ ws ++ u "{" ++ body ++ u "}") post).
Proof.
  intros Hws Hbody. unfold FixAllWarnings.pattern. cbn [seq].
  replace (u "}") with [rbrace] by (vm_compute; reflexivity).
  assert (Hclose :
    match_here (Cat (StarLazy (NoneOf [rbrace])) (Lit [rbrace]))
      (body ++ [rbrace] ++ post) = Some (Found [] (body ++ [rbrace]) post))
    by (apply match_here_lazy_until, Hbody).
  assert (Hopen :
    match_here (Cat (Lit (u "{")) (Cat (StarLazy (NoneOf [rbrace])) (Lit [rbrace])))
      (u "{" ++ body ++ [rbrace] ++ post) =
    Some (Found [] (u "{" ++ body ++ [rbrace]) post)).
  { apply (match_here_cat_step _ _ _ [] (u "{") _ [] _ _ (match_here_lit _ _) Hclose). }
  assert (Hspace :
    match_here (Star Space) (ws ++ u "{" ++ body ++ [rbrace] ++ post) =
    Some (Found [] ws (u "{" ++ body ++ [rbrace] ++ post))).
  { apply match_here_star; [exact Hws | vm_compute; reflexivity]. }
  pose proof (match_here_cat_step _ _ _ [] ws _ [] _ _ Hspace Hopen) as Hrest.
  apply (match_here_cat_step _ _ _ [] (u "AnalysisWarning") _ [] _ _
           (match_here_lit _ _) Hrest).
Qed.

(** X9: the block that rule 1 of fix_all_warnings.py hands to
    [add_category_if_missing] runs from [AnalysisWarning], optional blanks
    and the opening brace to the FIRST closing brace after it: with no match
    beginning in [pre], the rule rewrites exactly that block and goes on
    with the text behind it, so that a [message:] line behind an inner
    closing brace is not part of the block. *)
Theorem block_ends_at_first_closing_brace (lower : str -> str)
    (pre ws body post : str) :
  no_match_starts FixAllWarnings.pattern pre
    (u "AnalysisWarning" ++ ws ++ u "{" ++ body ++ u "}" ++ post) = true ->
  forallb is_space ws = true ->
  ~ In rbrace body ->
  sub FixAllWarnings.pattern (FixAllWarnings.add_category_if_missing lower)
    (pre ++ u "AnalysisWarning" ++ ws ++ u "{" ++ body ++ u "}" ++ post) =
  pre ++
  FixAllWarnings.add_category_if_missing lower
    (whole (u "AnalysisWarning" ++ ws ++ u "{" ++ body ++ u "}")) ++
  sub FixAllWarnings.pattern (FixAllWarnings.add_category_if_missing lower) post.
Proof.
  intros Hpre Hws Hbody. rewrite (sub_reaches _ _ _ _ Hpre). f_equal.
  rewrite (sub_hit _ _ _ _ block_never_empty (block_match ws body post Hws Hbody)).
  reflexivity.
Qed.

Lemma block_ends_at_first_closing_brace_witness :
  sub FixAllWarnings.pattern (FixAllWarnings.add_category_if_missing lower_basic)
    (u "let w = " ++ u "AnalysisWarning" ++ u " " ++ u "{" ++
     u " level: Level { n: 1 " ++ u "}" ++ nested_block_rest) =
  u "let w = " ++
  FixAllWarnings.add_category_if_missing lower_basic
    (whole (u "AnalysisWarning" ++ u " " ++ u "{" ++ u " level: Level { n: 1 " ++
            u "}")) ++
  sub FixAllWarnings.pattern (FixAllWarnings.add_category_if_missing lower_basic)
    nested_block_rest.
Proof.
  apply (block_ends_at_first_closing_brace lower_basic (u "let w = ") (u " ")
           (u " level: Level { n: 1 ") nested_block_rest).
  - vm_compute. reflexivity.
  - vm_compute. reflexivity.
  - vm_compute. intros H. repeat (destruct H as [H | H]; [discriminate H|]).
    exact H.
Defined.

(** In the text of the witness the [message:] line lies behind the inner
    closing brace, and the record gets no category. *)
Lemma nested_brace_record_unchanged :
  FixAllWarnings.fix_text lower_basic
    (u "let w = AnalysisWarning { level: Level { n: 1 }," ++ nl ++
     u "    message: m," ++ nl ++ u "};") =
  u "let w = AnalysisWarning { level: Level { n: 1 }," ++ nl ++
  u "    message: m," ++ nl ++ u "};".
Proof. vm_compute. reflexivity. Qed.

(** ** Files that cannot be read *)

(** X10: a file that cannot be opened or decoded is handled alike by the
    three per-file functions: the exception is caught, one line naming the
    path and the exception is printed, nothing is written and the file
    counts as not fixed. *)
Theorem unreadable_file_is_reported
    (lower : str -> str) (path : str) (w : world) (e : exn) :
  fst (read_text path w) = inl e ->
  FixChrono.fix_chrono_some_in_file path w =
    (inr false, emitted w [Print (error_line path e)]) /\
  FixAnalysisWarnings.fix_analysis_warning_in_file path w =
    (inr false, emitted w [Print (error_line path e)]) /\
  FixAllWarnings.fix_analysis_warnings_comprehensive lower path w =
    (inr false, emitted w [Print (error_line path e)]).
Proof.
  intros Hread.
  assert (Hany : forall rewrite,
    rewrite_file rewrite path w =
    (inr false, emitted w [Print (error_line path e)])).
  { intros rewrite. rewrite rewrite_file_run.
    unfold read_text in Hread.
    destruct (files w !! path) as [f|]; cbn [fst] in Hread.
    - destruct (text f) as [e'|c]; cbn [fst] in Hread; [|discriminate].
      injection Hread as ->. reflexivity.
    - injection Hread as <-. reflexivity. }
  repeat split; apply Hany.
Qed.

Lemma unreadable_file_is_reported_witness :
  fst (read_text (u "src/bad.rs") mixed_world) = inl (u "invalid start byte") /\
  FixChrono.fix_chrono_some_in_file (u "src/bad.rs") mixed_world =
    (inr false,
     emitted mixed_world
       [Print (error_line (u "src/bad.rs") (u "invalid start byte"))]).
Proof.
  split; [vm_compute; reflexivity|].
  apply (unreadable_file_is_reported lower_basic (u "src/bad.rs") mixed_world
           (u "invalid start byte")).
  vm_compute. reflexivity.
Defined.

(** ** What fix_chrono.py and the second loop take away *)

Lemma pieces_shrink (repl : found -> str) (ps : list piece) :
  (forall f, In (Hit f) ps -> length (repl f) < length (matched f)) ->
  length (flat_map (fun p => match p with Keep c => [c] | Hit f => repl f end) ps)
    <= length (flat_map piece_text ps) /\
  (flat_map (fun p => match p with Keep c => [c] | Hit f => repl f end) ps
     <> flat_map piece_text ps ->
   length (flat_map (fun p => match p with Keep c => [c] | Hit f => repl f end) ps)
     < length (flat_map piece_text ps)).
Proof.
  induction ps as [|p ps IH]; intros H.
  - split; [reflexivity | intros Hne; contradiction Hne; reflexivity].
  - destruct IH as [IHle IHlt]; [intros f Hf; apply H; right; exact Hf|].
    cbn [flat_map]. rewrite !length_app. destruct p as [c | f]; cbn [piece_text].
    + split; [simpl; lia|]. intros Hne. simpl.
      apply -> Nat.succ_lt_mono. apply IHlt. intros Heq. apply Hne.
      simpl. f_equal. exact Heq.
    + specialize (H f (or_introl eq_refl)). split; [lia | intros _; lia].
Qed.

(** A substitution whose replacement is shorter than every match: the text
    does not grow, and it shrinks when it changes. *)
Lemma sub_shrinks r repl s :
  never_empty r ->
  (forall t f, match_here r t = Some f -> length (repl f) < length (matched f)) ->
  length (sub r repl s) <= length s /\
  (sub r repl s <> s -> length (sub r repl s) < length s).
Proof.
  intros Hr Hrepl.
  pose proof (pieces_shrink repl (scan r s)) as H.
  rewrite (scan_text r Hr s) in H. apply H.
  intros f Hf. destruct (scan_hits _ _ _ Hf) as [t Ht]. eauto.
Qed.

Lemma chrono_match_shrinks t f :
  match_here FixChrono.pattern_chrono t = Some f ->
  length (FixChrono.some_template f) < length (matched f).
Proof.
  intros H. apply match_here_lit_inv in H as [_ ->]. vm_compute. lia.
Qed.

Lemma nested_match_shrinks t f :
  match_here FixChrono.pattern_nested t = Some f ->
  length (FixChrono.nested_template f) < length (matched f).
Proof.
  intros H. apply match_here_in, alts_derives in H.
  unfold FixChrono.pattern_nested, seq in H. derives_inv. subst.
  destruct f as [g m a]. cbn [groups matched] in *. subst.
  unfold FixChrono.nested_template, group.
  cbn [groups nth Nat.sub app]. rewrite !length_app.
  replace (length (u "Some(")) with 5 by (vm_compute; reflexivity).
  replace (length (u ".to_rfc3339())")) with 14 by (vm_compute; reflexivity).
  replace (length (u "Some(Some(")) with 10 by (vm_compute; reflexivity).
  replace (length (u ").to_rfc3339()).to_rfc3339()")) with 28
    by (vm_compute; reflexivity).
  lia.
Qed.

Lemma message_match_shrinks t f :
  match_here FixAllWarnings.pattern_message t = Some f ->
  length (FixAllWarnings.unwrap_message f) < length (matched f).
Proof.
  intros H. apply match_here_in, alts_derives in H.
  unfold FixAllWarnings.pattern_message, seq in H. derives_inv. subst.
  destruct f as [g m a]. cbn [groups matched] in *. subst.
  unfold FixAllWarnings.unwrap_message, group.
  cbn [groups nth Nat.sub app]. rewrite !length_app.
  replace (length (u ".warnings.push(")) with 15 by (vm_compute; reflexivity).
  replace (length (u ")")) with 1 by (vm_compute; reflexivity).
  replace (length (u ".message)")) with 9 by (vm_compute; reflexivity).
  lia.
Qed.

(** X11: fix_chrono.py and the second loop of fix_all_warnings.py only take
    text away: the rewritten text is never longer than the text read, and
    it is strictly shorter whenever it differs from it, that is whenever
    the file is written. *)
Theorem chrono_and_unwrap_only_shorten (c : str) :
  (length (FixChrono.fix_text c) <= length c /\
   (FixChrono.fix_text c <> c -> length (FixChrono.fix_text c) < length c)) /\
  (length (unwrap_text c) <= length c /\
   (unwrap_text c <> c -> length (unwrap_text c) < length c)).
Proof.
  split.
  - unfold FixChrono.fix_text.
    destruct (sub_shrinks FixChrono.pattern_chrono FixChrono.some_template c
                chrono_never_empty chrono_match_shrinks) as [H1 H1'].
    destruct (sub_shrinks FixChrono.pattern_nested FixChrono.nested_template
                (sub FixChrono.pattern_chrono FixChrono.some_template c)
                nested_never_empty nested_match_shrinks) as [H2 H2'].
    split; [lia|]. intros Hne.
    destruct (str_eqb (sub FixChrono.pattern_chrono FixChrono.some_template c) c)
      eqn:E.
    + apply str_eqb_eq in E. rewrite E in *. apply H2', Hne.
    + apply str_eqb_neq in E. specialize (H1' E). lia.
  - apply (sub_shrinks _ _ c message_never_empty message_match_shrinks).
Qed.
